(** * The request proxy core of the anime backend

    A shallow embedding of the Express application that re-exposes the
    Jikan metadata API: the in-memory cache, the request queue with its
    worker loop [processQueue], the entry point [proxyRequest], and the two
    handlers [/api/watch/:id/:episode] and [/api/episodes/:id] that resolve
    episode sources.

    JavaScript runs every callback to completion, so the program is modelled
    as a transition system: one transition per callback that the runtime
    starts (an incoming HTTP request, a timer that fires, an [axios.get]
    promise that settles).  A transition runs the code up to the next
    [await].  What an [async] function still has to do after an [await] is
    kept in the state as a suspended activation. *)

From Stdlib Require Import ZArith List Bool Lia Ascii String.
From stdpp Require Import base option strings list gmap fin_maps.

Local Open Scope string_scope.
Local Open Scope list_scope.
Local Open Scope Z_scope.
Local Set Warnings "-register-all".

(** ** Values read from upstream bodies *)

(** A parsed response body.  Numbers are integers: no handler computes with
    them. *)
Inductive json :=
| JNull
| JBool (b : bool)
| JNum (n : Z)
| JStr (s : string)
| JArr (xs : list json)
| JObj (fields : list (string * json)).

(** A JavaScript value obtained from a body; [None] is [undefined]. *)
Definition jsval := option json.

Fixpoint assoc (k : string) (fs : list (string * json)) : jsval :=
  match fs with
  | [] => None
  | (k', v) :: fs' => if String.eqb k k' then Some v else assoc k fs'
  end.

(** [!v] is [negb (truthy v)]. *)
Definition truthy (v : jsval) : bool :=
  match v with
  | None | Some JNull | Some (JBool false) | Some (JNum 0) => false
  | Some (JStr s) => negb (String.eqb s "")
  | Some _ => true
  end.

(** [v.k] for a property [k] that is neither [length] nor an index; the
    outer [None] is the TypeError of reading a property of [null] or
    [undefined]. *)
Definition prop (k : string) (v : jsval) : option jsval :=
  match v with
  | None | Some JNull => None
  | Some (JObj fs) => Some (assoc k fs)
  | Some _ => Some None
  end.

(** [v.length] *)
Definition js_length (v : jsval) : option jsval :=
  match v with
  | None | Some JNull => None
  | Some (JArr xs) => Some (Some (JNum (Z.of_nat (length xs))))
  | Some (JStr s) => Some (Some (JNum (Z.of_nat (String.length s))))
  | Some (JObj fs) => Some (assoc "length" fs)
  | Some _ => Some None
  end.

(** [v[0]] *)
Definition js_first (v : jsval) : option jsval :=
  match v with
  | None | Some JNull => None
  | Some (JArr xs) => Some (head xs)
  | Some (JStr s) =>
      Some (match s with
            | EmptyString => None
            | String c _ => Some (JStr (String c EmptyString))
            end)
  | Some (JObj fs) => Some (assoc "0" fs)
  | Some _ => Some None
  end.

(** [v === 0] *)
Definition is_zero (v : jsval) : bool :=
  match v with
  | Some (JNum 0) => true
  | _ => false
  end.

(** ** Constants (lines 55-60) *)

Definition ANIME_API_URL : string := "https://api.jikan.moe/v4".
Definition GOGOANIME_API_URL : string :=
  "https://consumet-api.herokuapp.com/anime/gogoanime".
Definition CACHE_DURATION : Z := 5 * 60 * 1000.
Definition RATE_LIMIT_DELAY : Z := 1000.

(** ** Upstream calls *)

(** The target of an [axios.get].  [Jikan endpoint] is
    [`${ANIME_API_URL}${endpoint}`].  The three Gogoanime targets keep the
    values their URL is interpolated from: the search URL is built from the
    cleaned form of [title] (lines 172-183), the watch URL from
    [`${id}-episode-${episode}`], the info URL from [id]. *)
Inductive url :=
| Jikan (endpoint : string)
| GogoSearch (title : string)
| GogoWatch (id : jsval) (episode : Z)
| GogoInfo (id : jsval).

(** How an [axios.get] promise settles.  [Ok] is a fulfilled promise with
    [response.status] and [response.data].  [Err] is a rejected one:
    [response] is [error.response] ([None] for a timeout or a network
    error, where there is no response), [message] is [error.message]. *)
Inductive outcome :=
| Ok (status : Z) (data : json)
| Err (response : option (Z * json)) (message : string).

(** [error.response?.status === 429] *)
Definition throttled (response : option (Z * json)) : bool :=
  match response with
  | Some (s, _) => s =? 429
  | None => false
  end.

Arguments throttled : simpl never.

(** [error.response?.status || 500] *)
Definition status_or_500 (response : option (Z * json)) : Z :=
  match response with
  | Some (s, _) => if s =? 0 then 500 else s
  | None => 500
  end.

(** ** What the program does to the outside

    Every effect that leaves the process is appended to a log (newest
    first).  The log is instrumentation: no transition reads it. *)

Inductive issuer := Worker | Handler.

Inductive body :=
| BData (d : json)                        (* res.json(d) *)
| BFailure (error message : string)       (* { error, message } *)
| BSources (sources headers : jsval)      (* { sources, headers } *)
| BHandlerFailure (error : string).       (* { error, message, ... } of a
                                             handler; the text of the caught
                                             exception is left out *)

Inductive obs :=
| Issued (by_ : issuer) (t : Z) (u : url)
| Settled (by_ : issuer) (t : Z) (u : url) (o : outcome)
| Replied (res : nat) (status : Z) (b : body)
| Resolved (res : nat) (v : option json).

(** ** State *)

Record entry := { data : json; timestamp : Z }.

(** A queue item [{ endpoint, res, resolve }].  A request is identified by
    its response object; [resolve] settles the promise that the
    [proxyRequest] call of the same request awaits, so one handle stands
    for both. *)
Record item := { endpoint : string; res : nat }.

(** Where an activation of [processQueue] is suspended. *)
Inductive wstate :=
| AwaitGate (due : Z)        (* line 77: the spacing timer *)
| AwaitCall (it : item)      (* line 83: axios.get *)
| AwaitBackoff (due : Z).    (* line 116: the timer after a 429 *)

(** Where an activation of a watch or episodes handler is suspended. *)
Inductive hstate :=
| WatchMal (res : nat) (id : string) (episode : Z)       (* line 216 *)
| WatchSearch (res : nat) (title : string) (episode : Z) (* line 183 *)
| WatchSource (res : nat) (id : jsval) (episode : Z)     (* line 233 *)
| EpisodesMal (res : nat) (id : string)                  (* line 274 *)
| EpisodesSearch (res : nat) (title : string)            (* line 183 *)
| EpisodesInfo (res : nat) (id : jsval).                 (* line 281 *)

Record state := State {
  cache : gmap string entry;
  lastRequestTime : Z;
  queue : list item;
  isProcessingQueue : bool;
  workers : list wstate;     (* suspended activations of processQueue *)
  handlers : list hstate;    (* suspended watch and episodes handlers *)
  clock : Z;                 (* instrumentation: time of the last callback *)
  log : list obs             (* instrumentation *)
}.

Definition init : state :=
  {| cache := ∅; lastRequestTime := 0; queue := [];
     isProcessingQueue := false; workers := []; handlers := [];
     clock := 0; log := [] |}.

Definition set_cache (c : gmap string entry) (st : state) : state :=
  {| cache := c; lastRequestTime := lastRequestTime st; queue := queue st;
     isProcessingQueue := isProcessingQueue st; workers := workers st;
     handlers := handlers st; clock := clock st; log := log st |}.

Definition set_lastRequestTime (t : Z) (st : state) : state :=
  {| cache := cache st; lastRequestTime := t; queue := queue st;
     isProcessingQueue := isProcessingQueue st; workers := workers st;
     handlers := handlers st; clock := clock st; log := log st |}.

Definition set_queue (q : list item) (st : state) : state :=
  {| cache := cache st; lastRequestTime := lastRequestTime st; queue := q;
     isProcessingQueue := isProcessingQueue st; workers := workers st;
     handlers := handlers st; clock := clock st; log := log st |}.

Definition set_isProcessingQueue (b : bool) (st : state) : state :=
  {| cache := cache st; lastRequestTime := lastRequestTime st;
     queue := queue st; isProcessingQueue := b; workers := workers st;
     handlers := handlers st; clock := clock st; log := log st |}.

Definition set_workers (ws : list wstate) (st : state) : state :=
  {| cache := cache st; lastRequestTime := lastRequestTime st;
     queue := queue st; isProcessingQueue := isProcessingQueue st;
     workers := ws; handlers := handlers st; clock := clock st;
     log := log st |}.

Definition set_handlers (hs : list hstate) (st : state) : state :=
  {| cache := cache st; lastRequestTime := lastRequestTime st;
     queue := queue st; isProcessingQueue := isProcessingQueue st;
     workers := workers st; handlers := hs; clock := clock st;
     log := log st |}.

Definition set_clock (t : Z) (st : state) : state :=
  {| cache := cache st; lastRequestTime := lastRequestTime st;
     queue := queue st; isProcessingQueue := isProcessingQueue st;
     workers := workers st; handlers := handlers st; clock := t;
     log := log st |}.

Definition emit (o : obs) (st : state) : state :=
  {| cache := cache st; lastRequestTime := lastRequestTime st;
     queue := queue st; isProcessingQueue := isProcessingQueue st;
     workers := workers st; handlers := handlers st; clock := clock st;
     log := o :: log st |}.

(** ** The queue worker (lines 67-129)

    A piece of [processQueue] between two suspension points is a function
    from the state to the new state and to the point where the activation
    suspends next; [None] when the activation is over. *)

Definition segment := state -> state * option wstate.

(** Lines 80-89: [queue.shift()], then [axios.get] is called for the item
    and awaited.  Destructuring the [undefined] that [shift] gives on an
    empty array throws, outside the [try]: the activation is over and line
    128 is not reached. *)
Definition shift_and_call (now : Z) : segment := fun st =>
  match queue st with
  | [] => (st, None)
  | it :: q =>
      (emit (Issued Worker now (Jikan (endpoint it))) (set_queue q st),
       Some (AwaitCall it))
  end.

(** Lines 72-78, from the loop test: leave the loop and clear the flag
    (line 128), or wait for the rest of the spacing interval, or go on to
    the call. *)
Definition while_loop (now : Z) : segment := fun st =>
  match queue st with
  | [] => (set_isProcessingQueue false st, None)
  | _ :: _ =>
      let timeSinceLastRequest := now - lastRequestTime st in
      if timeSinceLastRequest <? RATE_LIMIT_DELAY
      then (st, Some (AwaitGate
                        (now + (RATE_LIMIT_DELAY - timeSinceLastRequest))))
      else shift_and_call now st
  end.

(** Lines 90-125: the awaited [axios.get] of item [it] has settled. *)
Definition on_settled (now : Z) (it : item) (o : outcome) : segment :=
  fun st =>
  let st := emit (Settled Worker now (Jikan (endpoint it)) o) st in
  match o with
  | Ok _ d =>
      let st := set_lastRequestTime now st in
      let st := set_cache (<[endpoint it :=
                               {| data := d; timestamp := now |}]> (cache st))
                          st in
      let st := emit (Resolved (res it) (Some d)) st in
      let st := emit (Replied (res it) 200 (BData d)) st in
      while_loop now st
  | Err response message =>
      if throttled response
      then (set_queue (it :: queue st) st,
            Some (AwaitBackoff (now + RATE_LIMIT_DELAY)))
      else
        let st := emit (Replied (res it) (status_or_500 response)
                          (BFailure "Failed to fetch anime data" message))
                       st in
        let st := emit (Resolved (res it) None) st in
        while_loop now st
  end.

(** [processQueue()] as a call (lines 67-70, then the loop up to its first
    [await]): a new activation is started only past the guard. *)
Definition processQueue (now : Z) (st : state) : state :=
  if isProcessingQueue st || bool_decide (queue st = [])
  then st
  else
    let '(st', k) := while_loop now (set_isProcessingQueue true st) in
    set_workers (workers st' ++ option_list k) st'.

(** ** The entry point (lines 132-155) *)

(** [cached && Date.now() - cached.timestamp < CACHE_DURATION] *)
Definition fresh (now : Z) (cached : option entry) : bool :=
  match cached with
  | Some c => now - timestamp c <? CACHE_DURATION
  | None => false
  end.

Definition proxyRequest (now : Z) (r : nat) (ep : string) (st : state)
  : state :=
  let cached := cache st !! ep in
  match cached with
  | Some c =>
      if fresh now cached
      then emit (Replied r 200 (BData (data c))) st
      else processQueue now
             (set_queue (queue st ++ [{| endpoint := ep; res := r |}]) st)
  | None =>
      processQueue now
        (set_queue (queue st ++ [{| endpoint := ep; res := r |}]) st)
  end.

(** ** The watch and episodes handlers (lines 167-291)

    Both call [axios.get] themselves, three times in a row.  A step of a
    handler gives the new state and the next suspension point; [None] when
    the handler has replied. *)

Definition hsegment := state -> state * option hstate.

(** [malResponse.data.data.title], as a string on which
    [getGogoanimeInfo] can call [toLowerCase]; [None] when reading it
    throws. *)
Definition mal_title (d : json) : option string :=
  malAnime ← prop "data" (Some d);
  title ← prop "title" malAnime;
  match title with
  | Some (JStr s) => Some s
  | _ => None
  end.

(** Lines 190-196 and the [gogoanimeInfo.id] read by the caller: the [id]
    of the first search result; [None] when [getGogoanimeInfo] or the read
    throws. *)
Definition gogo_id (d : json) : option jsval :=
  results ← prop "results" (Some d);
  if negb (truthy results) then None
  else
    len ← js_length results;
    if is_zero len then None
    else animeInfo ← js_first results; prop "id" animeInfo.

(** Lines 245-252: the reply built from the source lookup; [None] when
    there are no sources. *)
Definition watch_body (d : json) : option body :=
  sources ← prop "sources" (Some d);
  headers ← prop "headers" (Some d);
  if negb (truthy sources) then None
  else
    len ← js_length sources;
    if is_zero len then None else Some (BSources sources headers).

(** [parseInt(req.params.episode) || 1]; the argument is what [parseInt]
    gives, [None] for [NaN]. *)
Definition episode_or_1 (parsed : option Z) : Z :=
  match parsed with
  | Some n => if n =? 0 then 1 else n
  | None => 1
  end.

Definition mal_endpoint (id : string) : string := "/anime/" +:+ id +:+ "/full".

(** The [catch] blocks of the two handlers. *)
Definition fail_with (r : nat) (error : string) : hsegment := fun st =>
  (emit (Replied r 500 (BHandlerFailure error)) st, None).

Definition issue (now : Z) (u : url) (k : hstate) : hsegment := fun st =>
  (emit (Issued Handler now u) st, Some k).

Definition watch (now : Z) (r : nat) (id : string) (parsed : option Z)
  : hsegment :=
  issue now (Jikan (mal_endpoint id)) (WatchMal r id (episode_or_1 parsed)).

Definition episodes (now : Z) (r : nat) (id : string) : hsegment :=
  issue now (Jikan (mal_endpoint id)) (EpisodesMal r id).

(** The target of the call a suspended handler is waiting for. *)
Definition awaited (h : hstate) : url :=
  match h with
  | WatchMal _ id _ | EpisodesMal _ id => Jikan (mal_endpoint id)
  | WatchSearch _ title _ | EpisodesSearch _ title => GogoSearch title
  | WatchSource _ id episode => GogoWatch id episode
  | EpisodesInfo _ id => GogoInfo id
  end.

Definition hsettled (now : Z) (h : hstate) (o : outcome) : hsegment :=
  fun st =>
  let st := emit (Settled Handler now (awaited h) o) st in
  match h, o with
  | WatchMal r _ episode, Ok _ d =>
      match mal_title d with
      | Some title => issue now (GogoSearch title) (WatchSearch r title episode) st
      | None => fail_with r "Failed to fetch video" st
      end
  | WatchSearch r _ episode, Ok _ d =>
      match gogo_id d with
      | Some id => issue now (GogoWatch id episode) (WatchSource r id episode) st
      | None => fail_with r "Failed to fetch video" st
      end
  | WatchSource r _ _, Ok _ d =>
      match watch_body d with
      | Some b => (emit (Replied r 200 b) st, None)
      | None => fail_with r "Failed to fetch video" st
      end
  | (WatchMal r _ _ | WatchSearch r _ _ | WatchSource r _ _), Err _ _ =>
      fail_with r "Failed to fetch video" st
  | EpisodesMal r _, Ok _ d =>
      match mal_title d with
      | Some title => issue now (GogoSearch title) (EpisodesSearch r title) st
      | None => fail_with r "Failed to fetch episodes" st
      end
  | EpisodesSearch r _, Ok _ d =>
      match gogo_id d with
      | Some id => issue now (GogoInfo id) (EpisodesInfo r id) st
      | None => fail_with r "Failed to fetch episodes" st
      end
  | EpisodesInfo r _, Ok _ d => (emit (Replied r 200 (BData d)) st, None)
  | (EpisodesMal r _ | EpisodesSearch r _ | EpisodesInfo r _), Err _ _ =>
      fail_with r "Failed to fetch episodes" st
  end.

(** ** Transitions *)

(** The callbacks the runtime starts.  [w] and [h] are positions in
    [workers] and [handlers]. *)
Inductive event :=
| Fetch (res : nat) (endpoint : string)   (* a route calls proxyRequest *)
| Timer (w : nat)                         (* the setTimeout of w fires *)
| Response (w : nat) (o : outcome)        (* the axios.get of w settles *)
| Watch (res : nat) (id : string) (episode : option Z)
| Episodes (res : nat) (id : string)
| HResponse (h : nat) (o : outcome).      (* the axios.get of h settles *)

(** Activation [w] runs [seg] and suspends again, or is over. *)
Definition resume (w : nat) (seg : segment) (st : state) : state :=
  let '(st', k) := seg st in
  set_workers (match k with
               | Some ws => <[w := ws]> (workers st')
               | None => delete w (workers st')
               end) st'.

Definition hresume (h : nat) (seg : hsegment) (st : state) : state :=
  let '(st', k) := seg st in
  set_handlers (match k with
                | Some hs => <[h := hs]> (handlers st')
                | None => delete h (handlers st')
                end) st'.

Definition hspawn (seg : hsegment) (st : state) : state :=
  let '(st', k) := seg st in
  set_handlers (handlers st' ++ option_list k) st'.

(** One callback, run at time [now]: what [Date.now()] returns while it
    runs (a callback reads the clock at most three times, at lines 91, 94
    and 73; it is taken to give the same value each time).  [None]: the
    runtime cannot start this callback in this state. *)
Definition step (now : Z) (e : event) (st : state) : option state :=
  let st := set_clock now st in
  match e with
  | Fetch r ep => Some (proxyRequest now r ep st)
  | Timer w =>
      match workers st !! w with
      | Some (AwaitGate _) => Some (resume w (shift_and_call now) st)
      | Some (AwaitBackoff _) => Some (resume w (while_loop now) st)
      | _ => None
      end
  | Response w o =>
      match workers st !! w with
      | Some (AwaitCall it) => Some (resume w (on_settled now it o) st)
      | _ => None
      end
  | Watch r id episode => Some (hspawn (watch now r id episode) st)
  | Episodes r id => Some (hspawn (episodes now r id) st)
  | HResponse h o =>
      match handlers st !! h with
      | Some hs => Some (hresume h (hsettled now hs o) st)
      | None => None
      end
  end.

(** The clock does not go back, and a timer does not fire before it is
    due. *)
Definition timely (now : Z) (e : event) (st : state) : bool :=
  (clock st <=? now) &&
  match e with
  | Timer w =>
      match workers st !! w with
      | Some (AwaitGate due) | Some (AwaitBackoff due) => due <=? now
      | _ => true
      end
  | _ => true
  end.

Fixpoint run (tr : list (Z * event)) (st : state) : option state :=
  match tr with
  | [] => Some st
  | (now, e) :: tr' =>
      match step now e st with
      | Some st' => run tr' st'
      | None => None
      end
  end.

Fixpoint well_timed (tr : list (Z * event)) (st : state) : bool :=
  match tr with
  | [] => true
  | (now, e) :: tr' =>
      timely now e st &&
      match step now e st with
      | Some st' => well_timed tr' st'
      | None => false
      end
  end.

(** ** Reading the log and the state *)

(** The entries that are upstream calls of the queue worker. *)
Definition by_worker (o : obs) : bool :=
  match o with
  | Issued Worker _ _ | Settled Worker _ _ _ => true
  | _ => false
  end.

Definition worker_log (st : state) : list obs := filter by_worker (log st).

(** The calls of the queue worker that are in flight: one per activation
    suspended at line 83. *)
Definition awaits_call (w : wstate) : bool :=
  match w with
  | AwaitCall _ => true
  | _ => false
  end.

Definition worker_calls (st : state) : nat :=
  length (filter awaits_call (workers st)).

(** All upstream calls in flight; every suspended handler awaits one. *)
Definition in_flight (st : state) : nat :=
  (worker_calls st + length (handlers st))%nat.

(** The events of the proxy core: no watch or episodes handler runs. *)
Definition core_event (e : event) : bool :=
  match e with
  | Fetch _ _ | Timer _ | Response _ _ => true
  | _ => false
  end.

(** The item a [Fetch] puts in the queue. *)
Definition item_of (r : nat) (ep : string) : item :=
  {| endpoint := ep; res := r |}.

(** The due time of the spacing timer set at [now] (line 77). *)
Definition gate_due (now last : Z) : Z :=
  now + (RATE_LIMIT_DELAY - (now - last)).

(** The cache entry written at line 92. *)
Definition stored (now : Z) (it : item) (d : json) (c : gmap string entry)
  : gmap string entry :=
  <[endpoint it := {| data := d; timestamp := now |}]> c.

(** What a successful call logs, newest first (lines 91-104). *)
Definition ok_log (now : Z) (it : item) (s : Z) (d : json) : list obs :=
  [Replied (res it) 200 (BData d); Resolved (res it) (Some d);
   Settled Worker now (Jikan (endpoint it)) (Ok s d)].

(** What a terminal failure logs, newest first (lines 105-124). *)
Definition fail_log (now : Z) (it : item) (r : option (Z * json))
  (m : string) : list obs :=
  [Resolved (res it) None;
   Replied (res it) (status_or_500 r)
     (BFailure "Failed to fetch anime data" m);
   Settled Worker now (Jikan (endpoint it)) (Err r m)].

(** An entry that a handler step may log at time [now]. *)
Definition handler_obs (now : Z) (o : obs) : Prop :=
  match o with
  | Issued Handler t _ | Settled Handler t _ _ => t = now
  | Replied _ _ _ => True
  | _ => False
  end.

(** ** The worker guard

    At most one activation of [processQueue] exists; the flag is set
    exactly while it exists; it sleeps only over a non-empty queue. *)
Definition guard_inv (st : state) : Prop :=
  match workers st with
  | [] => isProcessingQueue st = false ∧ queue st = []
  | [AwaitCall _] => isProcessingQueue st = true
  | [AwaitGate _] | [AwaitBackoff _] =>
      isProcessingQueue st = true ∧ queue st ≠ []
  | _ => False
  end.

(** The transitions of a state under the guard, case by case. *)
Inductive trans (now : Z) : state → event → state → Prop :=
| t_hit c l q f ws hs ck lg r ep e :
    c !! ep = Some e → now - timestamp e < CACHE_DURATION →
    trans now (State c l q f ws hs ck lg) (Fetch r ep)
      (State c l q f ws hs now (Replied r 200 (BData (data e)) :: lg))
| t_miss_busy c l q w hs ck lg r ep :
    fresh now (c !! ep) = false →
    trans now (State c l q true [w] hs ck lg) (Fetch r ep)
      (State c l (q ++ [item_of r ep]) true [w] hs now lg)
| t_miss_gate c l hs ck lg r ep :
    fresh now (c !! ep) = false → now - l < RATE_LIMIT_DELAY →
    trans now (State c l [] false [] hs ck lg) (Fetch r ep)
      (State c l [item_of r ep] true [AwaitGate (gate_due now l)] hs now lg)
| t_miss_call c l hs ck lg r ep :
    fresh now (c !! ep) = false → RATE_LIMIT_DELAY ≤ now - l →
    trans now (State c l [] false [] hs ck lg) (Fetch r ep)
      (State c l [] true [AwaitCall (item_of r ep)] hs now
         (Issued Worker now (Jikan ep) :: lg))
| t_gate_wake c l it q due hs ck lg :
    trans now (State c l (it :: q) true [AwaitGate due] hs ck lg) (Timer 0)
      (State c l q true [AwaitCall it] hs now
         (Issued Worker now (Jikan (endpoint it)) :: lg))
| t_backoff_gate c l it q due hs ck lg :
    now - l < RATE_LIMIT_DELAY →
    trans now (State c l (it :: q) true [AwaitBackoff due] hs ck lg) (Timer 0)
      (State c l (it :: q) true [AwaitGate (gate_due now l)] hs now lg)
| t_backoff_call c l it q due hs ck lg :
    RATE_LIMIT_DELAY ≤ now - l →
    trans now (State c l (it :: q) true [AwaitBackoff due] hs ck lg) (Timer 0)
      (State c l q true [AwaitCall it] hs now
         (Issued Worker now (Jikan (endpoint it)) :: lg))
| t_ok_exit c l it hs ck lg s d :
    trans now (State c l [] true [AwaitCall it] hs ck lg) (Response 0 (Ok s d))
      (State (stored now it d c) now [] false [] hs now
         (ok_log now it s d ++ lg))
| t_ok_gate c l it it' q hs ck lg s d :
    trans now (State c l (it' :: q) true [AwaitCall it] hs ck lg)
      (Response 0 (Ok s d))
      (State (stored now it d c) now (it' :: q) true
         [AwaitGate (gate_due now now)] hs now (ok_log now it s d ++ lg))
| t_throttled c l it q hs ck lg r m :
    throttled r = true →
    trans now (State c l q true [AwaitCall it] hs ck lg) (Response 0 (Err r m))
      (State c l (it :: q) true [AwaitBackoff (now + RATE_LIMIT_DELAY)] hs now
         (Settled Worker now (Jikan (endpoint it)) (Err r m) :: lg))
| t_fail_exit c l it hs ck lg r m :
    throttled r = false →
    trans now (State c l [] true [AwaitCall it] hs ck lg) (Response 0 (Err r m))
      (State c l [] false [] hs now (fail_log now it r m ++ lg))
| t_fail_gate c l it it' q hs ck lg r m :
    throttled r = false → now - l < RATE_LIMIT_DELAY →
    trans now (State c l (it' :: q) true [AwaitCall it] hs ck lg)
      (Response 0 (Err r m))
      (State c l (it' :: q) true [AwaitGate (gate_due now l)] hs now
         (fail_log now it r m ++ lg))
| t_fail_call c l it it' q hs ck lg r m :
    throttled r = false → RATE_LIMIT_DELAY ≤ now - l →
    trans now (State c l (it' :: q) true [AwaitCall it] hs ck lg)
      (Response 0 (Err r m))
      (State c l q true [AwaitCall it'] hs now
         (Issued Worker now (Jikan (endpoint it')) :: fail_log now it r m ++ lg))
| t_handler c l q f ws hs ck lg e hs' new :
    core_event e = false → Forall (handler_obs now) new →
    trans now (State c l q f ws hs ck lg) e
      (State c l q f ws hs' now (new ++ lg)).

(** ** Counting per key *)

Definition is_call_for (K : string) (o : obs) : bool :=
  match o with
  | Issued Worker _ (Jikan ep) => String.eqb ep K
  | _ => false
  end.

(** The calls the worker has issued for key [K]. *)
Definition calls_for (K : string) (l : list obs) : nat :=
  length (filter (is_call_for K) l).

Definition is_for (K : string) (it : item) : bool := String.eqb (endpoint it) K.

(** The items for key [K] that wait in the queue. *)
Definition queued_for (K : string) (q : list item) : nat :=
  length (filter (is_for K) q).

(** Calls issued plus items queued, for key [K]. *)
Definition served (K : string) (st : state) : nat :=
  (calls_for K (log st) + queued_for K (queue st))%nat.

(** An upstream status is an HTTP status. *)
Definition http_status (r : option (Z * json)) : Prop :=
  ∀ s b, r = Some (s, b) → 100 ≤ s ≤ 599.

(** ** The cache, read from the log *)

(** What the newest successful call of the worker for key [K] has stored
    (line 92). *)
Fixpoint last_success (K : string) (l : list obs) : option entry :=
  match l with
  | [] => None
  | Settled Worker t (Jikan ep) (Ok _ d) :: l' =>
      if String.eqb ep K then Some {| data := d; timestamp := t |}
      else last_success K l'
  | _ :: l' => last_success K l'
  end.

(** Cache entries are not from the future, and every successful call of
    the worker is covered by an entry at least as new. *)
Definition stamps (c : gmap string entry) (ck : Z) (lg : list obs) : Prop :=
  (∀ K e, c !! K = Some e → timestamp e ≤ ck) ∧
  (∀ t K s d, In (Settled Worker t (Jikan K) (Ok s d)) lg →
              ∃ e, c !! K = Some e ∧ t ≤ timestamp e).

Definition stamps_inv (st : state) : Prop :=
  stamps (cache st) (clock st) (log st).

(** No entry of [new] is a successful call of the worker. *)
Definition no_success (new : list obs) : Prop :=
  ∀ t u s d, ¬ In (Settled Worker t u (Ok s d)) new.

(** ** Spacing, read from the log *)

(** The time of the newest call of the worker, when it was answered 429. *)
Fixpoint prev_throttle (l : list obs) : option Z :=
  match l with
  | [] => None
  | Issued Worker _ _ :: _ => None
  | Settled Worker t _ o :: _ =>
      match o with
      | Err r _ => if throttled r then Some t else None
      | Ok _ _ => None
      end
  | _ :: l' => prev_throttle l'
  end.

(** A call of the worker may start at [t2] after the log [l]. *)
Definition may_start (t2 : Z) (l : list obs) : Prop :=
  (∀ t1 u s d, In (Settled Worker t1 u (Ok s d)) l →
               t1 + RATE_LIMIT_DELAY ≤ t2) ∧
  (∀ t1, prev_throttle l = Some t1 → t1 + RATE_LIMIT_DELAY ≤ t2).

Fixpoint spaced (l : list obs) : Prop :=
  match l with
  | [] => True
  | o :: l' =>
      match o with
      | Issued Worker t2 _ => may_start t2 l'
      | _ => True
      end ∧ spaced l'
  end.

Definition pace_inv (st : state) : Prop :=
  spaced (log st) ∧
  lastRequestTime st ≤ clock st ∧
  (∀ t u s d, In (Settled Worker t u (Ok s d)) (log st) →
              t ≤ lastRequestTime st) ∧
  match workers st with
  | [AwaitGate due] =>
      lastRequestTime st + RATE_LIMIT_DELAY ≤ due ∧
      prev_throttle (log st) = None
  | [AwaitBackoff due] =>
      lastRequestTime st + RATE_LIMIT_DELAY ≤ due ∧
      ∀ t, prev_throttle (log st) = Some t → t + RATE_LIMIT_DELAY ≤ due
  | [AwaitCall _] => True
  | _ => prev_throttle (log st) = None
  end.

Definition is_timer (e : event) : bool :=
  match e with
  | Timer _ => true
  | _ => false
  end.

(** The entries that are upstream calls, of the worker or of a handler. *)
Definition is_call (o : obs) : bool :=
  match o with
  | Issued _ _ _ | Settled _ _ _ _ => true
  | _ => false
  end.

Definition call_log (st : state) : list obs := filter is_call (log st).

(** The calls of the worker for key [K] that are in flight. *)
Definition awaits_call_for (K : string) (w : wstate) : bool :=
  match w with
  | AwaitCall it => String.eqb (endpoint it) K
  | _ => false
  end.

Definition in_flight_for (K : string) (st : state) : nat :=
  length (filter (awaits_call_for K) (workers st)).

(** Three requests for [K]; the second and the third arrive while the call
    for the first is in flight.  Every call succeeds. *)
Definition three_fetches (K : string) (t1 t2 t3 s1 g2 s2 g3 s3 : Z)
  (c1 c2 c3 : Z) (P1 P2 P3 : json) : list (Z * event) :=
  [(t1, Fetch 1 K); (t2, Fetch 2 K); (t3, Fetch 3 K);
   (s1, Response 0 (Ok c1 P1));
   (g2, Timer 0); (s2, Response 0 (Ok c2 P2));
   (g3, Timer 0); (s3, Response 0 (Ok c3 P3))].

(** Requests for [A] and then [B]; the call for [A] is refused once, with
    [r], and then succeeds. *)
Definition throttled_once (A B : string) (t1 t2 s1 g1 s2 g2 s3 : Z)
  (r : option (Z * json)) (m : string) (c1 c2 : Z) (PA PB : json)
  : list (Z * event) :=
  [(t1, Fetch 1 A); (t2, Fetch 2 B);
   (s1, Response 0 (Err r m));
   (g1, Timer 0); (s2, Response 0 (Ok c1 PA));
   (g2, Timer 0); (s3, Response 0 (Ok c2 PB))].

(** ** Concrete runs *)

Definition t0 : Z := 1700000000000.
Definition recent : string := "/seasons/now?limit=24".
Definition trending : string := "/top/anime?filter=airing&limit=24".
Definition page : json := JObj [("data", JArr [JObj [("mal_id", JNum 1)]])].
Definition page' : json := JObj [("data", JArr [JObj [("mal_id", JNum 2)]])].
Definition anime : json :=
  JObj [("data", JObj [("mal_id", JNum 1); ("title", JStr "Cowboy Bebop")])].
Definition status_500 : option (Z * json) := Some (500, JNull).
Definition status_429 : option (Z * json) := Some (429, JNull).

(** Three requests for the same key within one second; the first call is
    answered after 800 ms. *)
Definition burst : list (Z * event) :=
  three_fetches recent t0 (t0 + 300) (t0 + 600)
    (t0 + 800) (t0 + 1800) (t0 + 2000) (t0 + 3000) (t0 + 3200)
    200 200 200 page page page.

(** Two requests; the call for the first fails with a 500. *)
Definition failing_pair : list (Z * event) :=
  [(t0, Fetch 1 trending); (t0 + 10, Fetch 2 recent);
   (t0 + 400, Response 0 (Err status_500 "Request failed with status code 500"))].

(** A request through the proxy and a watch request for the same anime. *)
Definition fetch_and_watch : list (Z * event) :=
  [(t0, Fetch 1 (mal_endpoint "1")); (t0 + 10, Watch 2 "1" (Some 1))].

(** The metadata of anime 1 is fetched through the proxy and cached. *)
Definition warm : list (Z * event) :=
  [(t0, Fetch 1 (mal_endpoint "1")); (t0 + 100, Response 0 (Ok 200 anime))].

Definition warm_state : state :=
  State (<["/anime/1/full" := {| data := anime; timestamp := t0 + 100 |}]> ∅)
    (t0 + 100) [] false [] [] (t0 + 100)
    (ok_log (t0 + 100) (item_of 1 "/anime/1/full") 200 anime
     ++ [Issued Worker t0 (Jikan "/anime/1/full")]).

(** One request; its call is in flight. *)
Definition one_fetch : list (Z * event) := [(t0, Fetch 1 recent)].

Definition busy : state :=
  State ∅ 0 [] true [AwaitCall (item_of 1 recent)] [] t0
    [Issued Worker t0 (Jikan recent)].

(** The call of [busy] has succeeded. *)
Definition one_success : list (Z * event) :=
  [(t0, Fetch 1 recent); (t0 + 800, Response 0 (Ok 200 page))].

Definition served_state : state :=
  State (<[recent := {| data := page; timestamp := t0 + 800 |}]> ∅)
    (t0 + 800) [] false [] [] (t0 + 800)
    (ok_log (t0 + 800) (item_of 1 recent) 200 page
     ++ [Issued Worker t0 (Jikan recent)]).

(** [busy] after a watch request has arrived. *)
Definition busy_watched : state :=
  State ∅ 0 [] true [AwaitCall (item_of 1 recent)] [WatchMal 2 "1" 1]
    (t0 + 10)
    [Issued Handler (t0 + 10) (Jikan "/anime/1/full");
     Issued Worker t0 (Jikan recent)].

(** Two requests, a success, and the second call after the spacing timer. *)
Definition two_calls : list (Z * event) :=
  [(t0, Fetch 1 recent); (t0 + 300, Fetch 2 recent);
   (t0 + 800, Response 0 (Ok 200 page)); (t0 + 1800, Timer 0)].

Definition two_calls_state : state :=
  State (<[recent := {| data := page; timestamp := t0 + 800 |}]> ∅)
    (t0 + 800) [] true [AwaitCall (item_of 2 recent)] [] (t0 + 1800)
    (Issued Worker (t0 + 1800) (Jikan recent)
     :: ok_log (t0 + 800) (item_of 1 recent) 200 page
     ++ [Issued Worker t0 (Jikan recent)]).

(** [busy] after a 429 and a request that arrived during the back-off. *)
Definition backoff_state : state :=
  State ∅ 0 [item_of 1 recent; item_of 2 trending] true
    [AwaitBackoff (t0 + 400 + RATE_LIMIT_DELAY)] [] (t0 + 500)
    [Settled Worker (t0 + 400) (Jikan recent) (Err status_429 "429");
     Issued Worker t0 (Jikan recent)].

(** Two requests for [recent] while it is not cached; upstream answers the
    first call with [page] and the second with [page']. *)
Definition two_answers : list (Z * event) :=
  [(t0, Fetch 1 recent); (t0 + 300, Fetch 2 recent);
   (t0 + 800, Response 0 (Ok 200 page)); (t0 + 1800, Timer 0);
   (t0 + 2000, Response 0 (Ok 200 page'))].

(** Two requests for [recent]; the first call has succeeded, the second
    request waits in the queue behind the spacing timer. *)
Definition one_waiting : list (Z * event) :=
  [(t0, Fetch 1 recent); (t0 + 300, Fetch 2 recent);
   (t0 + 800, Response 0 (Ok 200 page))].

Definition waiting_state : state :=
  State (<[recent := {| data := page; timestamp := t0 + 800 |}]> ∅)
    (t0 + 800) [item_of 2 recent] true
    [AwaitGate (gate_due (t0 + 800) (t0 + 800))] [] (t0 + 800)
    (ok_log (t0 + 800) (item_of 1 recent) 200 page
     ++ [Issued Worker t0 (Jikan recent)]).

(** [warm], then a watch request for the same anime 100 ms later. *)
Definition warm_then_watch : list (Z * event) :=
  warm ++ [(t0 + 200, Watch 2 "1" (Some 1))].

(** ** Requests in progress *)

(** The item whose call an activation awaits. *)
Definition in_call (w : wstate) : list item :=
  match w with
  | AwaitCall it => [it]
  | _ => []
  end.

(** The requests that missed the cache and are not answered yet: the one
    being called, then the queue. *)
Definition pending (st : state) : list item :=
  flat_map in_call (workers st) ++ queue st.

(** The callers whose promise the worker has resolved, newest first. *)
Fixpoint resolved (l : list obs) : list nat :=
  match l with
  | [] => []
  | Resolved r _ :: l' => r :: resolved l'
  | _ :: l' => resolved l'
  end.

(** The callers whose request misses the cache along a run, in the order
    of arrival. *)
Fixpoint misses (tr : list (Z * event)) (st : state) : list nat :=
  match tr with
  | [] => []
  | (now, e) :: tr' =>
      match e with
      | Fetch r ep => if fresh now (cache st !! ep) then [] else [r]
      | _ => []
      end ++
      match step now e st with
      | Some st' => misses tr' st'
      | None => []
      end
  end.

(** ** Handlers in progress *)

(** The caller a suspended handler works for. *)
Definition hres (h : hstate) : nat :=
  match h with
  | WatchMal r _ _ | WatchSearch r _ _ | WatchSource r _ _
  | EpisodesMal r _ | EpisodesSearch r _ | EpisodesInfo r _ => r
  end.

(** The upstream calls a handler still awaits, the one in flight
    included, when every call succeeds. *)
Definition calls_left (h : hstate) : nat :=
  match h with
  | WatchMal _ _ _ | EpisodesMal _ _ => 3
  | WatchSearch _ _ _ | EpisodesSearch _ _ => 2
  | WatchSource _ _ _ | EpisodesInfo _ _ => 1
  end.

Definition succeeded (o : outcome) : bool :=
  match o with
  | Ok _ _ => true
  | Err _ _ => false
  end.

(** ** Requests and replies, caller by caller *)

(** How many elements of a list satisfy [p]. *)
Fixpoint tally {A} (p : A → bool) (l : list A) : nat :=
  match l with
  | [] => 0
  | x :: l' => ((if p x then 1 else 0) + tally p l')%nat
  end.

(** A reply sent to caller [r]. *)
Definition is_reply_to (r : nat) (o : obs) : bool :=
  match o with
  | Replied r' _ _ => Nat.eqb r' r
  | _ => false
  end.

(** A queued or called item of caller [r]. *)
Definition is_from (r : nat) (it : item) : bool := Nat.eqb (res it) r.

(** A suspended handler that works for caller [r]. *)
Definition works_for (r : nat) (h : hstate) : bool := Nat.eqb (hres h) r.

(** A request of caller [r] arrives. *)
Definition is_request_from (r : nat) (x : Z * event) : bool :=
  match x.2 with
  | Fetch r' _ | Watch r' _ _ | Episodes r' _ => Nat.eqb r' r
  | _ => false
  end.

(** ** The timestamp, read from the log *)

(** The completion time of the newest successful call of the worker. *)
Fixpoint newest_success_time (l : list obs) : option Z :=
  match l with
  | [] => None
  | Settled Worker t _ (Ok _ _) :: _ => Some t
  | _ :: l' => newest_success_time l'
  end.

(** ** Running the worker to the end *)

(** The callbacks of the worker itself. *)
Definition worker_event (e : event) : bool :=
  match e with
  | Timer _ | Response _ _ => true
  | _ => false
  end.

(** How far the worker is from leaving the loop when every call
    succeeds: callbacks still to run. *)
Definition to_go (st : state) : nat :=
  match workers st with
  | [AwaitCall _] | [AwaitBackoff _] => 2 * length (queue st) + 1
  | [AwaitGate _] => 2 * length (queue st)
  | _ => 0
  end.

(** ** Sustained throttling *)

(** One round: the call is refused with [r] at time [x.1], the back-off
    timer fires at time [x.2]. *)
Definition refusal (r : option (Z * json)) (m : string) (x : Z * Z)
  : list (Z * event) :=
  [(x.1, Response 0 (Err r m)); (x.2, Timer 0)].

(** What a round logs, newest first. *)
Definition refusal_log (it : item) (r : option (Z * json)) (m : string)
  (x : Z * Z) : list obs :=
  [Issued Worker x.2 (Jikan (endpoint it));
   Settled Worker x.1 (Jikan (endpoint it)) (Err r m)].

(** ** Successes, read from the log *)

(** Every successful call of the worker has completed at least
    [RATE_LIMIT_DELAY] after every earlier one. *)
Fixpoint successes_spaced (l : list obs) : Prop :=
  match l with
  | [] => True
  | o :: l' =>
      match o with
      | Settled Worker t2 _ (Ok _ _) =>
          ∀ t1 u s d, In (Settled Worker t1 u (Ok s d)) l' →
                      t1 + RATE_LIMIT_DELAY ≤ t2
      | _ => True
      end ∧ successes_spaced l'
  end.

(** While a call of the worker is in flight, every earlier success lies at
    least [RATE_LIMIT_DELAY] back. *)
Definition success_inv (st : state) : Prop :=
  successes_spaced (log st) ∧
  ∀ it, workers st = [AwaitCall it] →
        ∀ t1 u s d, In (Settled Worker t1 u (Ok s d)) (log st) →
                    t1 + RATE_LIMIT_DELAY ≤ clock st.

(** ** The calls of the handlers *)

(** The calls a handler has still to issue after the one in flight, when
    every call succeeds. *)
Definition owed (h : hstate) : nat := calls_left h - 1.

Fixpoint owed_all (hs : list hstate) : nat :=
  match hs with
  | [] => 0
  | h :: hs' => owed h + owed_all hs'
  end.

(** The calls the handlers have issued. *)
Fixpoint handler_calls (l : list obs) : nat :=
  match l with
  | [] => 0
  | Issued Handler _ _ :: l' => S (handler_calls l')
  | _ :: l' => handler_calls l'
  end.

Definition is_hrequest (e : event) : bool :=
  match e with
  | Watch _ _ _ | Episodes _ _ => true
  | _ => false
  end.

(** The watch and episodes requests that arrive along a run. *)
Definition hrequests (tr : list (Z * event)) : nat :=
  length (filter (λ x, is_hrequest x.2) tr).





(** ** The routes of the proxy (lines 158-161) *)

(** [encodeURIComponent], on the UTF-8 bytes of the text: a letter, a
    digit or one of [- _ . ! ~ * ' ( )] is kept, every other byte becomes
    [%] and its two upper-case hexadecimal digits. *)
Definition in_range (lo hi c : ascii) : bool :=
  (nat_of_ascii lo <=? nat_of_ascii c)%nat &&
  (nat_of_ascii c <=? nat_of_ascii hi)%nat.

Definition occurs (c : ascii) (s : string) : bool :=
  existsb (Ascii.eqb c) (list_ascii_of_string s).

Definition is_unreserved (c : ascii) : bool :=
  in_range "A" "Z" c || in_range "a" "z" c || in_range "0" "9" c ||
  occurs c "-_.!~*'()".

Definition hex_digits : string := "0123456789ABCDEF".

Definition hex_digit (n : nat) : ascii :=
  default "0"%char (String.get n hex_digits).

Definition percent (c : ascii) : string :=
  String "%" (String (hex_digit (nat_of_ascii c / 16))
                (String (hex_digit (nat_of_ascii c mod 16)) "")).

Definition escape (c : ascii) : string :=
  if is_unreserved c then String c "" else percent c.

Fixpoint encodeURIComponent (s : string) : string :=
  match s with
  | EmptyString => ""
  | String c s' => escape c +:+ encodeURIComponent s'
  end.

(** What a route asks the proxy for. *)
Inductive route :=
| Trending
| Recent
| Search (query : string)
| Info (id : string).

Definition route_endpoint (rt : route) : string :=
  match rt with
  | Trending => "/top/anime?filter=airing&limit=24"
  | Recent => "/seasons/now?limit=24"
  | Search query => "/anime?q=" +:+ encodeURIComponent query +:+ "&limit=24"
  | Info id => "/anime/" +:+ id +:+ "/full"
  end.

Definition route_request (now : Z) (r : nat) (rt : route) (st : state)
  : state :=
  proxyRequest now r (route_endpoint rt) st.

(** Reading back the first escaped byte of a string: used to tell encoded
    queries apart. *)
Fixpoint index_of (c : ascii) (s : string) : option nat :=
  match s with
  | EmptyString => None
  | String c' s' => if Ascii.eqb c c' then Some 0%nat else S <$> index_of c s'
  end.

Definition first_escaped (s : string) : option (ascii * string) :=
  match s with
  | EmptyString => None
  | String c rest =>
      if Ascii.eqb c "%" then
        match rest with
        | String h (String l rest') =>
            match index_of h hex_digits, index_of l hex_digits with
            | Some a, Some b => Some (ascii_of_nat (16 * a + b), rest')
            | _, _ => None
            end
        | _ => None
        end
      else Some (c, rest)
  end.

(** ** A burst of requests *)

(** [n] requests for key [K], all arriving at time [now], from callers
    [0 .. n-1]. *)
Definition flood (now : Z) (K : string) (n : nat) : list (Z * event) :=
  map (λ r, (now, Fetch r K)) (seq 0 n).

(** ** What a reply reports *)

(** The reply [Replied _ s b] is in order after the log [l]: its status is
    not 429, and when it is a failure reply of the proxy it reports a call
    of the worker in [l] that failed with something other than a 429, with
    that call's message and with its status or 500. *)
Definition reports (l : list obs) (s : Z) (b : body) : Prop :=
  s ≠ 429 ∧
  ∀ e m, b = BFailure e m →
    ∃ t u rsp, In (Settled Worker t u (Err rsp m)) l ∧
               throttled rsp = false ∧ s = status_or_500 rsp.

Definition told (l : list obs) : Prop :=
  ∀ r s b, In (Replied r s b) l → reports l s b.

(** ** Waiting in the queue *)

(** A call of the worker is answered 429. *)
Definition is_refusal (e : event) : bool :=
  match e with
  | Response _ (Err r _) => throttled r
  | _ => false
  end.

(** The callbacks of the worker along a run. *)
Definition worker_events (tr : list (Z * event)) : nat :=
  length (filter (λ x, worker_event x.2) tr).

(** The callbacks of the worker that the item at position [i] of the queue
    waits for at most, when no call is answered 429: the timer, or the
    answer to the call in flight, and then an answer and a timer for every
    item before it. *)
Definition wait_of (st : state) (i : nat) : nat :=
  match workers st with
  | [AwaitGate _] => 2 * i + 1
  | _ => 2 * i + 2
  end.

(** The targets of the calls of the worker in a log, newest first. *)
Fixpoint issued (l : list obs) : list url :=
  match l with
  | [] => []
  | Issued Worker _ u :: l' => u :: issued l'
  | _ :: l' => issued l'
  end.

Definition call_of (it : item) : url := Jikan (endpoint it).

(** ** Requests for one key *)

(** The requests for key [K] that miss the cache along a run. *)
Fixpoint misses_for (K : string) (tr : list (Z * event)) (st : state) : nat :=
  match tr with
  | [] => 0
  | (now, e) :: tr' =>
      (match e with
       | Fetch _ ep =>
           if fresh now (cache st !! ep) then 0
           else if String.eqb ep K then 1 else 0
       | _ => 0
       end +
       match step now e st with
       | Some st' => misses_for K tr' st'
       | None => 0
       end)%nat
  end.

Definition is_refusal_for (K : string) (o : obs) : bool :=
  match o with
  | Settled Worker _ (Jikan ep) (Err r _) => throttled r && String.eqb ep K
  | _ => false
  end.

(** The calls of the worker for key [K] that were answered 429. *)
Definition refused_for (K : string) (l : list obs) : nat :=
  length (filter (is_refusal_for K) l).

(** Requests for [K] from the callers [k], [k+1], ..., arriving at the
    times [ts]. *)
Fixpoint arrivals (K : string) (k : nat) (ts : list Z) : list (Z * event) :=
  match ts with
  | [] => []
  | t :: ts' => (t, Fetch k K) :: arrivals K (S k) ts'
  end.

(** How upstream answers a call that succeeds: at time [done_at], with
    [code] and [payload]; the spacing timer set after it fires at time
    [wake]. *)
Record answer := { done_at : Z; wake : Z; code : Z; payload : json }.

(** The callbacks of the worker when every call succeeds; no timer is set
    after the last answer. *)
Fixpoint serve (answers : list answer) : list (Z * event) :=
  match answers with
  | [] => []
  | a :: rest =>
      (done_at a, Response 0 (Ok (code a) (payload a))) ::
      match rest with
      | [] => []
      | _ :: _ => (wake a, Timer 0) :: serve rest
      end
  end.

(** What is logged, newest first, while the call for [it] and then the
    calls for the items of [q] are answered. *)
Fixpoint serve_log (it : item) (q : list item) (answers : list answer)
  : list obs :=
  match answers with
  | [] => []
  | a :: rest =>
      match q with
      | [] => ok_log (done_at a) it (code a) (payload a)
      | it' :: q' =>
          serve_log it' q' rest ++
          Issued Worker (wake a) (Jikan (endpoint it')) ::
          ok_log (done_at a) it (code a) (payload a)
      end
  end.

(** The callers [k], [k+1], ... of [n] requests for [K]. *)
Definition callers (K : string) (k n : nat) : list item :=
  map (λ r, item_of r K) (seq k n).

(** ** More concrete runs *)

(** Two requests for [recent]; the call for the first is in flight. *)
Definition two_fetches : list (Z * event) :=
  [(t0, Fetch 1 recent); (t0 + 300, Fetch 2 recent)].

Definition two_pending : state :=
  State ∅ 0 [item_of 2 recent] true [AwaitCall (item_of 1 recent)] []
    (t0 + 300) [Issued Worker t0 (Jikan recent)].

(** [served_state], 400 s later: the entry is stale, a request for
    [recent] is called upstream again. *)
Definition refetching : state :=
  State (<[recent := {| data := page; timestamp := t0 + 800 |}]> ∅)
    (t0 + 800) [] true [AwaitCall (item_of 2 recent)] [] (t0 + 400000)
    (Issued Worker (t0 + 400000) (Jikan recent)
     :: ok_log (t0 + 800) (item_of 1 recent) 200 page
     ++ [Issued Worker t0 (Jikan recent)]).

(** The end of [two_answers]. *)
Definition two_answers_state : state :=
  State (<[recent := {| data := page'; timestamp := t0 + 2000 |}]> ∅)
    (t0 + 2000) [] false [] [] (t0 + 2000)
    (ok_log (t0 + 2000) (item_of 2 recent) 200 page'
     ++ Issued Worker (t0 + 1800) (Jikan recent)
     :: ok_log (t0 + 800) (item_of 1 recent) 200 page
     ++ [Issued Worker t0 (Jikan recent)]).

(** A request through the proxy, then a watch request. *)
Definition fetch_then_watch : list (Z * event) :=
  one_fetch ++ [(t0 + 10, Watch 2 "1" (Some 1))].

(** A watch request whose metadata lookup and title search succeed. *)
Definition found : json :=
  JObj [("results", JArr [JObj [("id", JStr "cowboy-bebop")]])].



Definition streams : json :=
  JObj [("sources", JArr [JObj [("url", JStr "https://cdn.example/1.m3u8")]]);
        ("headers", JObj [("Referer", JStr "https://cdn.example")])].

(** Two rounds of refusal for the call of [busy]. *)
Definition two_refusals : list (Z * Z) :=
  [(t0 + 400, t0 + 1400); (t0 + 1500, t0 + 2500)].

(** The spacing timer of [waiting_state] fires. *)
Definition timer_fires : list (Z * event) := [(t0 + 1800, Timer 0)].

(** The answers to the three calls of [burst]. *)
Definition burst_answers : list answer :=
  [{| done_at := t0 + 800; wake := t0 + 1800; code := 200; payload := page |};
   {| done_at := t0 + 2000; wake := t0 + 3000; code := 200; payload := page |};
   {| done_at := t0 + 3200; wake := t0 + 4200; code := 200; payload := page |}].

(** The call of [busy] is answered 429, and after the back-off it fails
    with a 500. *)
Definition refused_then_failed : list (Z * event) :=
  [(t0, Fetch 1 recent);
   (t0 + 400,
    Response 0 (Err status_429 "Request failed with status code 429"));
   (t0 + 1400, Timer 0);
   (t0 + 1600,
    Response 0 (Err status_500 "Request failed with status code 500"))].

Definition failed_state : state :=
  State ∅ 0 [] false [] [] (t0 + 1600)
    (fail_log (t0 + 1600) (item_of 1 recent) status_500
       "Request failed with status code 500"
     ++ [Issued Worker (t0 + 1400) (Jikan recent);
         Settled Worker (t0 + 400) (Jikan recent)
           (Err status_429 "Request failed with status code 429");
         Issued Worker t0 (Jikan recent)]).

(** * Proofs *)

(** ** Transitions under the guard *)

Lemma hsettled_shape now h o st :
  ∃ new k, hsettled now h o st =
    (State (cache st) (lastRequestTime st) (queue st) (isProcessingQueue st)
       (workers st) (handlers st) (clock st) (new ++ log st), k)
    ∧ Forall (handler_obs now) new.
Proof.
  destruct st as [c l q f ws hs ck lg].
  unfold hsettled, fail_with, issue, emit; simpl.
  destruct h, o; simpl; repeat case_match; simpl;
    first [ by eexists (cons _ (cons _ nil)), _; split;
              [reflexivity | repeat constructor]
          | by eexists (cons _ (cons _ (cons _ nil))), _; split;
              [reflexivity | repeat constructor] ].
Qed.

Lemma miss_trans now c l q f ws hs ck lg r ep :
  guard_inv (State c l q f ws hs ck lg) →
  fresh now (c !! ep) = false →
  trans now (State c l q f ws hs ck lg) (Fetch r ep)
    (processQueue now
       (set_queue (q ++ [item_of r ep]) (State c l q f ws hs now lg))).
Proof.
  unfold guard_inv; simpl. intros Hg Hf.
  destruct ws as [|w [|w' ws]]; [| |by destruct w].
  - destruct Hg as [-> ->].
    unfold processQueue, while_loop, shift_and_call; simpl.
    destruct (Z.ltb_spec (now - l) RATE_LIMIT_DELAY) as [Hgate|Hgate]; simpl.
    + apply t_miss_gate; [done | lia].
    + apply t_miss_call; [done | lia].
  - assert (f = true) as -> by (destruct w; tauto).
    unfold processQueue; simpl. by apply t_miss_busy.
Qed.

Lemma while_loop_eq now st :
  while_loop now st =
    match queue st with
    | [] => (set_isProcessingQueue false st, None)
    | it :: q =>
        if now - lastRequestTime st <? RATE_LIMIT_DELAY
        then (st, Some (AwaitGate (gate_due now (lastRequestTime st))))
        else (emit (Issued Worker now (Jikan (endpoint it))) (set_queue q st),
              Some (AwaitCall it))
    end.
Proof.
  unfold while_loop, shift_and_call. destruct (queue st); [done|].
  by case_match.
Qed.

Lemma step_trans now e st st' :
  guard_inv st → step now e st = Some st' → trans now st e st'.
Proof.
  destruct st as [c l q f ws hs ck lg]. intros Hg Hs.
  destruct e as [r ep | w | w o | r id ep | r id | h o].
  - (* Fetch *)
    unfold step, proxyRequest, set_clock in Hs; simpl in Hs.
    destruct (c !! ep) as [e|] eqn:Hc; simpl in Hs.
    + destruct (Z.ltb_spec (now - timestamp e) CACHE_DURATION) as [Hf|Hf].
      * simplify_eq. apply t_hit; [done | simpl; lia].
      * simplify_eq. apply miss_trans; [done|]. rewrite Hc. simpl. by apply Z.ltb_ge.
    + simplify_eq. apply miss_trans; [done|]. by rewrite Hc.
  - (* Timer *)
    unfold guard_inv in Hg; simpl in Hg.
    unfold step, set_clock in Hs; simpl in Hs.
    destruct ws as [|w0 [|w1 ws]]; [by destruct w | | by destruct w0].
    destruct w as [|w]; [|by destruct w].
    simpl in Hs. destruct w0 as [due | it | due]; [| done |];
      destruct Hg as [-> Hq]; destruct q as [|it q]; try done.
    + simplify_eq. apply t_gate_wake.
    + unfold resume in Hs. rewrite while_loop_eq in Hs. simpl in Hs.
      destruct (Z.ltb_spec (now - l) RATE_LIMIT_DELAY) as [Hgate|Hgate]; simplify_eq/=.
      * apply t_backoff_gate. lia.
      * apply t_backoff_call. lia.
  - (* Response *)
    unfold guard_inv in Hg; simpl in Hg.
    unfold step, set_clock in Hs; simpl in Hs.
    destruct ws as [|w0 [|w1 ws]]; [by destruct w | | by destruct w0].
    destruct w as [|w]; [|by destruct w].
    simpl in Hs. destruct w0 as [due | it | due]; try done.
    subst f. unfold resume, on_settled in Hs.
    destruct o as [s d | rsp m].
    + rewrite while_loop_eq in Hs. simpl in Hs.
      destruct q as [|it' q]; simplify_eq/=.
      * apply t_ok_exit.
      * replace (now - now <? RATE_LIMIT_DELAY) with true
          by (symmetry; apply Z.ltb_lt; unfold RATE_LIMIT_DELAY; lia).
        apply t_ok_gate.
    + destruct (throttled rsp) eqn:Hth.
      * simplify_eq/=. by apply t_throttled.
      * rewrite while_loop_eq in Hs. simpl in Hs.
        destruct q as [|it' q]; simplify_eq/=.
        -- by apply t_fail_exit.
        -- destruct (Z.ltb_spec (now - l) RATE_LIMIT_DELAY) as [Hgate|Hgate]; simplify_eq/=.
           ++ apply t_fail_gate; [done | lia].
           ++ apply t_fail_call; [done | lia].
  - (* Watch *)
    unfold step, hspawn, watch, issue in Hs. simplify_eq/=.
    apply (t_handler now c l q f ws hs ck lg (Watch r id ep) _
             [Issued Handler now (Jikan (mal_endpoint id))]); [done|].
    by repeat constructor.
  - unfold step, hspawn, episodes, issue in Hs. simplify_eq/=.
    apply (t_handler now c l q f ws hs ck lg (Episodes r id) _
             [Issued Handler now (Jikan (mal_endpoint id))]); [done|].
    by repeat constructor.
  - unfold step in Hs. simpl in Hs.
    destruct (hs !! h) as [hst|] eqn:Hh; [|done]. simplify_eq.
    unfold hresume.
    destruct (hsettled_shape now hst o (set_clock now (State c l q f ws hs ck lg)))
      as (new & k & -> & Hnew). simpl.
    by apply t_handler.
Qed.

Lemma trans_guard now e st st' :
  guard_inv st → trans now st e st' → guard_inv st'.
Proof.
  intros Hg Ht. destruct Ht; unfold guard_inv in *; simpl in *; try done.
  destruct w; destruct_and?; try done; split; try done; by destruct q.
Qed.

Lemma step_guard now e st st' :
  guard_inv st → step now e st = Some st' → guard_inv st'.
Proof. eauto using trans_guard, step_trans. Qed.

Lemma run_guard tr : ∀ st st',
  guard_inv st → run tr st = Some st' → guard_inv st'.
Proof.
  induction tr as [|[now e] tr IH]; intros st st' Hg Hr; simpl in Hr.
  - by simplify_eq.
  - destruct (step now e st) as [st1|] eqn:Hs; [|done].
    eapply IH; [|done]. by eapply step_guard.
Qed.

Lemma init_guard : guard_inv init.
Proof. by split. Qed.

Lemma reachable_guard tr st : run tr init = Some st → guard_inv st.
Proof. apply run_guard, init_guard. Qed.

(** An invariant of the guarded transitions holds in every reachable
    state. *)
Lemma run_invariant (P : state → Prop) :
  (∀ now e st st', guard_inv st → P st → trans now st e st' → P st') →
  ∀ tr st st', guard_inv st → P st → run tr st = Some st' → P st'.
Proof.
  intros Hstep. induction tr as [|[now e] tr IH]; intros st st' Hg HP Hr;
    simpl in Hr.
  - by simplify_eq.
  - destruct (step now e st) as [st1|] eqn:Hs; [|done].
    eapply IH; [| |done]; eauto using step_guard, step_trans.
Qed.

(** The same for an invariant that needs the clock not to go back and
    timers not to fire early. *)
Lemma timed_invariant (P : state → Prop) :
  (∀ now e st st', guard_inv st → P st → timely now e st = true →
                   trans now st e st' → P st') →
  ∀ tr st st', guard_inv st → P st → well_timed tr st = true →
               run tr st = Some st' → P st'.
Proof.
  intros Hstep. induction tr as [|[now e] tr IH]; intros st st' Hg HP Ht Hr;
    simpl in Hr, Ht.
  - by simplify_eq.
  - destruct (step now e st) as [st1|] eqn:Hs; [|done].
    apply andb_prop in Ht as [Ht1 Ht2].
    eapply IH; [| | |done]; eauto using step_guard, step_trans.
Qed.

Lemma run_app tr1 : ∀ tr2 st,
  run (tr1 ++ tr2) st = run tr1 st ≫= run tr2.
Proof.
  induction tr1 as [|[now e] tr1 IH]; intros tr2 st; simpl; [done|].
  destruct (step now e st); simpl; [apply IH | done].
Qed.

Lemma well_timed_app tr1 : ∀ tr2 st st1,
  run tr1 st = Some st1 →
  well_timed (tr1 ++ tr2) st = well_timed tr1 st && well_timed tr2 st1.
Proof.
  induction tr1 as [|[now e] tr1 IH]; intros tr2 st st1 Hr; simpl in *.
  - by simplify_eq.
  - destruct (step now e st) as [st'|]; [|done].
    rewrite (IH tr2 st' st1 Hr). by rewrite andb_assoc.
Qed.

(** ** The worker guard (C8) *)

Lemma processQueue_running now st :
  isProcessingQueue st = true → processQueue now st = st.
Proof. intros H. unfold processQueue. by rewrite H. Qed.

Lemma guard_flag st :
  guard_inv st → (isProcessingQueue st = true ↔ workers st ≠ []).
Proof.
  unfold guard_inv. destruct (workers st) as [|[] []]; try done;
    intros; destruct_and?; split; congruence.
Qed.

Lemma guard_length st : guard_inv st → (length (workers st) ≤ 1)%nat.
Proof.
  unfold guard_inv. destruct (workers st) as [|[] []]; simpl; try done; lia.
Qed.

(** C8.  A call of [processQueue] made while the flag is set leaves the
    whole state as it is: nothing is dequeued, no call is issued, no
    activation is added.  In every state the program can reach there is at
    most one activation of the loop, and the flag is set exactly while
    there is one: it is cleared when the loop exits. *)
Theorem worker_loop_guard tr st :
  run tr init = Some st →
  (∀ now, isProcessingQueue st = true → processQueue now st = st) ∧
  (length (workers st) ≤ 1)%nat ∧
  (isProcessingQueue st = true ↔ workers st ≠ []).
Proof.
  intros Hr. pose proof (reachable_guard _ _ Hr) as Hg.
  split; [|split].
  - intros now. apply processQueue_running.
  - by apply guard_length.
  - by apply guard_flag.
Qed.

(** ** One call of the worker in flight (C6) *)

Lemma guard_worker_calls st : guard_inv st → (worker_calls st ≤ 1)%nat.
Proof.
  unfold guard_inv, worker_calls.
  destruct (workers st) as [|[] []]; simpl; try done; lia.
Qed.

Lemma trans_core_handlers now e st st' :
  trans now st e st' → core_event e = true → handlers st' = handlers st.
Proof. destruct 1; simpl; congruence. Qed.

Lemma core_run_handlers tr : ∀ st st',
  guard_inv st → forallb (λ x, core_event x.2) tr = true →
  run tr st = Some st' → handlers st' = handlers st.
Proof.
  induction tr as [|[now e] tr IH]; intros st st' Hg Hc Hr; simpl in *.
  - by simplify_eq.
  - destruct (step now e st) as [st1|] eqn:Hs; [|done].
    apply andb_prop in Hc as [Hc1 Hc2].
    rewrite (IH st1 st'); eauto using step_guard.
    eapply trans_core_handlers; eauto using step_trans.
Qed.

(** C6, as the code has it.  In every reachable state at most one call of
    the queue worker is in flight, whatever requests arrive; when only the
    proxy core runs (no watch or episodes request), that is the only call in
    flight.  The watch and episodes handlers call upstream themselves, past
    the guard: each suspended handler adds one call in flight. *)
Theorem one_worker_call_in_flight tr st :
  run tr init = Some st →
  (worker_calls st ≤ 1)%nat ∧
  (forallb (λ x, core_event x.2) tr = true → (in_flight st ≤ 1)%nat).
Proof.
  intros Hr. pose proof (guard_worker_calls _ (reachable_guard _ _ Hr)) as Hw.
  split; [done|]. intros Hc.
  unfold in_flight. rewrite (core_run_handlers tr init st); auto using init_guard.
  simpl. lia.
Qed.

(** ** The timestamp of the rate governor (C7) *)

Lemma while_loop_last now st :
  lastRequestTime (while_loop now st).1 = lastRequestTime st.
Proof.
  rewrite while_loop_eq. destruct (queue st); [done|]. by case_match.
Qed.

Lemma processQueue_last now st :
  lastRequestTime (processQueue now st) = lastRequestTime st.
Proof.
  unfold processQueue. destruct (_ || _); [done|].
  pose proof (while_loop_last now (set_isProcessingQueue true st)) as Hw.
  destruct (while_loop now (set_isProcessingQueue true st)) as [st' k].
  exact Hw.
Qed.

Lemma step_last now e st st' :
  step now e st = Some st' →
  lastRequestTime st' =
    match e with
    | Response _ (Ok _ _) => now
    | _ => lastRequestTime st
    end.
Proof.
  intros Hs. destruct e as [r ep | w | w o | r id ep | r id | h o];
    unfold step in Hs.
  - simplify_eq. unfold proxyRequest.
    destruct (cache _ !! ep); [destruct (fresh _ _)|]; try done;
      by rewrite processQueue_last.
  - destruct (workers (set_clock now st) !! w) as [[]|]; simplify_eq.
    + unfold resume, shift_and_call. by destruct (queue _).
    + unfold resume.
      pose proof (while_loop_last now (set_clock now st)) as H.
      by destruct (while_loop now (set_clock now st)).
  - destruct (workers (set_clock now st) !! w) as [[]|]; simplify_eq.
    unfold resume, on_settled. destruct o as [s d | r m].
    + match goal with |- context [while_loop now ?x] =>
        pose proof (while_loop_last now x) as H;
        destruct (while_loop now x) end.
      exact H.
    + destruct (throttled r); [done|].
      match goal with |- context [while_loop now ?x] =>
        pose proof (while_loop_last now x) as H;
        destruct (while_loop now x) end.
      exact H.
  - by simplify_eq.
  - by simplify_eq.
  - destruct (handlers (set_clock now st) !! h) as [hst|]; simplify_eq.
    unfold hresume.
    destruct (hsettled_shape now hst o (set_clock now st)) as (new & k & -> & _).
    done.
Qed.

(** C7.  A callback changes [lastRequestTime] only when it is the one that
    runs after a call of the worker has succeeded, and then it sets it to
    the current time; the callback of a failed call, 429 or not, leaves it
    as it was. *)
Theorem lastRequestTime_only_on_success now e st st' :
  step now e st = Some st' →
  (lastRequestTime st' ≠ lastRequestTime st →
   ∃ w it s d, e = Response w (Ok s d) ∧
               workers st !! w = Some (AwaitCall it) ∧
               lastRequestTime st' = now) ∧
  (∀ w r m, e = Response w (Err r m) →
            lastRequestTime st' = lastRequestTime st).
Proof.
  intros Hs. pose proof (step_last _ _ _ _ Hs) as Hl. split.
  - intros Hne. destruct e as [| |w [s d|]| | |]; try done.
    unfold step in Hs. simpl in Hs.
    destruct (workers st !! w) as [[| it |]|] eqn:Hw; try done.
    by exists w, it, s, d.
  - by intros w r m ->.
Qed.

(** ** Terminal failures (C5) *)

Lemma status_or_500_http r :
  http_status r →
  status_or_500 r = match r with Some (s, _) => s | None => 500 end.
Proof.
  intros Hr. destruct r as [[s b]|]; [|done]. simpl.
  specialize (Hr s b eq_refl). destruct (Z.eqb_spec s 0); [lia | done].
Qed.

(** C5.  The call of item [it] fails with anything but a 429.  The
    callback replies to the caller with the upstream status when there is a
    response and with 500 when there is none, resolves the caller's promise,
    and goes on with the loop: the item is not put back (the queue only
    loses its head, to the next call), the cache is left as it was. *)
Theorem terminal_failure now w it r m st :
  workers st !! w = Some (AwaitCall it) →
  throttled r = false →
  http_status r →
  ∃ st' (pre : list obs),
    step now (Response w (Err r m)) st = Some st' ∧
    log st' =
      pre ++
      [Resolved (res it) None;
       Replied (res it) (match r with Some (s, _) => s | None => 500 end)
         (BFailure "Failed to fetch anime data" m);
       Settled Worker now (Jikan (endpoint it)) (Err r m)] ++ log st ∧
    (pre = [] ∨
     ∃ it', head (queue st) = Some it' ∧
            pre = [Issued Worker now (Jikan (endpoint it'))]) ∧
    queue st' `suffix_of` queue st ∧
    cache st' = cache st.
Proof.
  intros Hw Hth Hr. destruct st as [c l q f ws hs ck lg]; simpl in *.
  unfold step; simpl. rewrite Hw. unfold resume, on_settled. rewrite Hth.
  rewrite while_loop_eq; simpl. rewrite (status_or_500_http r Hr).
  destruct q as [|it' q]; [|destruct (now - l <? RATE_LIMIT_DELAY)]; simpl.
  - eexists _, []. repeat split; by auto.
  - eexists _, []. repeat split; by auto.
  - eexists _, [_]. repeat split; simpl.
    + right. by exists it'.
    + by exists [it'].
Qed.

(** ** Episode-source resolution (C9) *)

(** C9, as the code has it.  A callback of the watch or episodes handlers
    leaves the proxy core as it is: it does not read or write the cache, it
    does not touch the queue, the timestamp, the flag or the worker.  Every
    call it issues, it issues itself at the time it runs; the request for
    the metadata of the anime is issued as soon as the request arrives. *)
Theorem episode_resolution_bypasses_proxy now e st st' :
  core_event e = false →
  step now e st = Some st' →
  cache st' = cache st ∧ queue st' = queue st ∧
  lastRequestTime st' = lastRequestTime st ∧
  isProcessingQueue st' = isProcessingQueue st ∧
  workers st' = workers st ∧
  ∃ new : list obs, log st' = new ++ log st ∧ Forall (handler_obs now) new ∧
    match e with
    | Watch _ id _ | Episodes _ id =>
        new = [Issued Handler now (Jikan (mal_endpoint id))]
    | _ => True
    end.
Proof.
  intros He Hs. destruct e as [| | | r id ep | r id | h o]; try done;
    unfold step in Hs.
  - simplify_eq. repeat split. eexists [_]. repeat split. by repeat constructor.
  - simplify_eq. repeat split. eexists [_]. repeat split. by repeat constructor.
  - destruct (handlers (set_clock now st) !! h) as [hst|]; simplify_eq.
    unfold hresume.
    destruct (hsettled_shape now hst o (set_clock now st))
      as (new & k & -> & Hnew).
    repeat split. by exists new.
Qed.

(** ** No second look at the cache (C10) *)

Lemma calls_for_cons K o l :
  calls_for K (o :: l) =
    ((if is_call_for K o then 1 else 0) + calls_for K l)%nat.
Proof.
  unfold calls_for. destruct (is_call_for K o) eqn:E.
  - rewrite filter_cons_True; [done | by apply Is_true_true].
  - rewrite filter_cons_False; [done | by apply Is_true_false].
Qed.

Lemma calls_for_app K l1 l2 :
  calls_for K (l1 ++ l2) = (calls_for K l1 + calls_for K l2)%nat.
Proof. unfold calls_for. by rewrite filter_app, length_app. Qed.

Lemma queued_for_cons K it q :
  queued_for K (it :: q) = ((if is_for K it then 1 else 0) + queued_for K q)%nat.
Proof.
  unfold queued_for. destruct (is_for K it) eqn:E.
  - rewrite filter_cons_True; [done | by apply Is_true_true].
  - rewrite filter_cons_False; [done | by apply Is_true_false].
Qed.

Lemma queued_for_app K q1 q2 :
  queued_for K (q1 ++ q2) = (queued_for K q1 + queued_for K q2)%nat.
Proof. unfold queued_for. by rewrite filter_app, length_app. Qed.

Lemma calls_for_handler K now new l :
  Forall (handler_obs now) new → calls_for K (new ++ l) = calls_for K l.
Proof.
  induction 1 as [|o new Ho _ IH]; [done|]. simpl.
  rewrite calls_for_cons, IH. by destruct o as [[]| [] | |].
Qed.

Lemma shift_and_call_served K now st :
  served K (shift_and_call now st).1 = served K st.
Proof.
  unfold shift_and_call, served. destruct (queue st) as [|it q] eqn:Hq; simpl.
  - by rewrite Hq.
  - rewrite calls_for_cons, queued_for_cons. unfold is_for. simpl. lia.
Qed.

Lemma while_loop_served K now st :
  served K (while_loop now st).1 = served K st.
Proof.
  unfold while_loop. destruct (queue st) eqn:Hq; [done|].
  case_match; [done|]. apply shift_and_call_served.
Qed.

Lemma on_settled_served K now it o st :
  (served K st ≤ served K (on_settled now it o st).1)%nat.
Proof.
  unfold on_settled. destruct o as [s d | r m].
  - rewrite while_loop_served. unfold served; simpl.
    rewrite !calls_for_cons. simpl. lia.
  - destruct (throttled r).
    + unfold served; simpl. rewrite queued_for_cons, calls_for_cons. simpl. lia.
    + rewrite while_loop_served. unfold served; simpl.
      rewrite !calls_for_cons. simpl. lia.
Qed.

Lemma resume_served K w seg st :
  served K (resume w seg st) = served K (seg st).1.
Proof. unfold resume. by destruct (seg st). Qed.

Lemma processQueue_served K now st :
  served K (processQueue now st) = served K st.
Proof.
  unfold processQueue. destruct (_ || _); [done|].
  pose proof (while_loop_served K now (set_isProcessingQueue true st)) as Hw.
  by destruct (while_loop now (set_isProcessingQueue true st)).
Qed.

Lemma step_served K now e st st' :
  step now e st = Some st' → (served K st ≤ served K st')%nat.
Proof.
  intros Hs. destruct e as [r ep | w | w o | r id ep | r id | h o];
    unfold step in Hs.
  - simplify_eq. unfold proxyRequest.
    destruct (cache _ !! ep); [destruct (fresh _ _)|];
      rewrite ?processQueue_served; unfold served; simpl;
      rewrite ?calls_for_cons, ?queued_for_app; simpl; lia.
  - destruct (workers (set_clock now st) !! w) as [[]|]; simplify_eq;
      rewrite resume_served.
    + by rewrite shift_and_call_served.
    + by rewrite while_loop_served.
  - destruct (workers (set_clock now st) !! w) as [[]|]; simplify_eq.
    rewrite resume_served.
    etrans; [|apply on_settled_served]. done.
  - simplify_eq. unfold served; simpl. rewrite calls_for_cons. simpl. lia.
  - simplify_eq. unfold served; simpl. rewrite calls_for_cons. simpl. lia.
  - destruct (handlers (set_clock now st) !! h) as [hst|]; simplify_eq.
    unfold hresume.
    destruct (hsettled_shape now hst o (set_clock now st))
      as (new & k & -> & Hnew).
    unfold served; simpl. by rewrite (calls_for_handler K now).
Qed.

Lemma run_served K tr : ∀ st st',
  run tr st = Some st' → (served K st ≤ served K st')%nat.
Proof.
  induction tr as [|[now e] tr IH]; intros st st' Hr; simpl in Hr.
  - by simplify_eq.
  - destruct (step now e st) as [st1|] eqn:Hs; [|done].
    etrans; [by eapply step_served | by apply IH].
Qed.

Lemma worker_step_ignores_cache now e c st :
  match e with Timer _ | Response _ _ => True | _ => False end →
  set_cache ∅ <$> step now e (set_cache c st) = set_cache ∅ <$> step now e st.
Proof.
  intros He. destruct st as [c0 l q f ws hs ck lg].
  destruct e as [| w | w o | | |]; try done; unfold step; simpl.
  - destruct (ws !! w) as [[]|]; try done; simpl; f_equal.
    + unfold resume, shift_and_call; simpl. by destruct q.
    + unfold resume. rewrite !while_loop_eq; simpl.
      destruct q; [done|]. by destruct (_ <? _).
  - destruct (ws !! w) as [[]|]; try done; simpl; f_equal.
    unfold resume, on_settled. destruct o as [s d | r m].
    + rewrite !while_loop_eq; simpl. destruct q; [done|]. by destruct (_ <? _).
    + destruct (throttled r); [done|].
      rewrite !while_loop_eq; simpl. destruct q; [done|]. by destruct (_ <? _).
Qed.

Lemma issued_app l1 l2 : issued (l1 ++ l2) = issued l1 ++ issued l2.
Proof.
  induction l1 as [|o l1 IH]; [done|]. simpl.
  destruct o as [[] | | |]; simpl; by rewrite ?IH.
Qed.

Lemma issued_handler now new :
  Forall (handler_obs now) new → issued new = [].
Proof.
  induction 1 as [|o new Ho _ IH]; [done|]. simpl.
  by destruct o as [[]| [] | |].
Qed.

Lemma worker_events_cons now e tr :
  worker_events ((now, e) :: tr) =
    ((if worker_event e then 1 else 0) + worker_events tr)%nat.
Proof.
  unfold worker_events. destruct (worker_event e) eqn:E.
  - rewrite filter_cons_True; [done | by apply Is_true_true].
  - rewrite filter_cons_False; [done | by apply Is_true_false].
Qed.

Lemma run_log tr : ∀ st st',
  guard_inv st → run tr st = Some st' → ∃ new, log st' = new ++ log st.
Proof.
  induction tr as [|[now e] tr IH]; intros st st' Hg Hr; simpl in Hr.
  - simplify_eq. by exists [].
  - destruct (step now e st) as [st1|] eqn:Hs; [|done].
    destruct (IH st1 st' (step_guard _ _ _ _ Hg Hs) Hr) as [new1 H1].
    assert (∃ new0, log st1 = new0 ++ log st) as [new0 H0].
    { pose proof (step_trans _ _ _ _ Hg Hs) as Ht.
      destruct Ht; simpl; unfold ok_log, fail_log;
        first [ by exists [] | by eexists [_] | by eexists [_; _; _]
              | by eexists [_; _; _; _] | by eexists ]. }
    exists (new1 ++ new0). by rewrite H1, H0, app_assoc.
Qed.

(** A callback takes an item off the queue only to call for it. *)
Lemma dequeue_is_call now e st st' :
  guard_inv st → step now e st = Some st' →
  (length (queue st') < length (queue st))%nat →
  ∃ it (pre : list obs),
    queue st = it :: queue st' ∧ workers st' = [AwaitCall it] ∧
    log st' = Issued Worker now (Jikan (endpoint it)) :: pre ++ log st.
Proof.
  intros Hg Hs Hlen. pose proof (step_trans _ _ _ _ Hg Hs) as Ht.
  destruct Ht; simpl in *; rewrite ?length_app in Hlen; simpl in Hlen;
    try lia.
  - by exists it, [].
  - by exists it, [].
  - exists it', (fail_log now it r m). done.
Qed.

(** A queued request has a worker, and the callback that worker waits for
    can run. *)
Lemma queued_worker_enabled st :
  guard_inv st → queue st ≠ [] →
  isProcessingQueue st = true ∧
  ((∀ now, is_Some (step now (Timer 0) st)) ∨
   (∀ now o, is_Some (step now (Response 0 o) st))).
Proof.
  intros Hg Hq. destruct st as [c l q f ws hs ck lg].
  unfold guard_inv in Hg. simpl in *.
  destruct ws as [|[due | it | due] [|]]; try done; destruct_and?;
    try done; (split; [done|]); unfold step; simpl; eauto.
Qed.

Lemma no_starvation tr : ∀ st st' i it,
  guard_inv st → queue st !! i = Some it → run tr st = Some st' →
  forallb (λ x, negb (is_refusal x.2)) tr = true →
  (wait_of st i ≤ worker_events tr)%nat →
  ∃ (new : list obs) rest,
    log st' = new ++ log st ∧
    rev (issued new) = map call_of (take (S i) (queue st)) ++ rest.
Proof.
  induction tr as [|[now e] tr IH]; intros st st' i it Hg Hi Hr Hn Hw.
  { unfold wait_of, worker_events in Hw. simpl in Hw.
    destruct (workers st) as [|[] []]; lia. }
  simpl in Hr, Hn. destruct (step now e st) as [st1|] eqn:Hs; [|done].
  apply andb_prop in Hn as [He Hn]. apply negb_true_iff in He.
  rewrite worker_events_cons in Hw.
  pose proof (step_guard _ _ _ _ Hg Hs) as Hg1.
  pose proof (step_trans _ _ _ _ Hg Hs) as Ht.
  assert (∀ (new0 : list obs) j it',
    log st1 = new0 ++ log st → issued new0 = [] →
    queue st1 !! j = Some it' →
    take (S j) (queue st1) = take (S i) (queue st) →
    (wait_of st1 j ≤ worker_events tr)%nat →
    ∃ (new : list obs) rest,
      log st' = new ++ log st ∧
      rev (issued new) = map call_of (take (S i) (queue st)) ++ rest)
    as Hsame.
  { intros new0 j it' Hl Hnew Hj Htake Hw1.
    destruct (IH st1 st' j it' Hg1 Hj Hr Hn Hw1) as (new & rest & H1 & H2).
    exists (new ++ new0), rest. split.
    - by rewrite H1, Hl, app_assoc.
    - by rewrite issued_app, Hnew, app_nil_r, H2, Htake. }
  assert (∀ (new0 : list obs) it0 q,
    queue st = it0 :: q → queue st1 = q →
    log st1 = new0 ++ log st → rev (issued new0) = [call_of it0] →
    (∀ j, i = S j → (wait_of st1 j ≤ worker_events tr)%nat) →
    ∃ (new : list obs) rest,
      log st' = new ++ log st ∧
      rev (issued new) = map call_of (take (S i) (queue st)) ++ rest)
    as Hcall.
  { intros new0 it0 q Hq Hq1 Hl Hnew Hw1. rewrite Hq in Hi |- *.
    destruct i as [|j].
    - destruct (run_log tr st1 st' Hg1 Hr) as [new H1].
      exists (new ++ new0), (rev (issued new)). split.
      + by rewrite H1, Hl, app_assoc.
      + by rewrite issued_app, rev_app_distr, Hnew.
    - simpl in Hi. rewrite <- Hq1 in Hi.
      destruct (IH st1 st' j it Hg1 Hi Hr Hn (Hw1 j eq_refl))
        as (new & rest & H1 & H2).
      exists (new ++ new0), rest. split.
      + by rewrite H1, Hl, app_assoc.
      + rewrite issued_app, rev_app_distr, Hnew, H2, Hq1. done. }
  destruct Ht; simpl in *; try done.
  - (* hit *)
    eapply (Hsame [_] i it); simpl; eauto.
  - (* miss, busy *)
    assert (i < length q)%nat as Hlt by (by eapply lookup_lt_Some).
    eapply (Hsame [] i it); simpl; eauto.
    + by rewrite lookup_app_l.
    + rewrite take_app_le by lia. done.
  - (* the spacing timer *)
    eapply (Hcall [_]); simpl; eauto.
    intros j ->. unfold wait_of in *. simpl in *. lia.
  - (* back-off, then the spacing timer *)
    eapply (Hsame [] i it); simpl; eauto.
    unfold wait_of in *. simpl in *. lia.
  - (* back-off, then the call *)
    eapply (Hcall [_]); simpl; eauto.
    intros j ->. unfold wait_of in *. simpl in *. lia.
  - (* success *)
    eapply (Hsame (ok_log now it0 s d) i it); simpl; eauto.
    unfold wait_of in *. simpl in *. lia.
  - (* refusal *)
    congruence.
  - (* failure, then the spacing timer *)
    eapply (Hsame (fail_log now it0 r m) i it); simpl; eauto.
    unfold wait_of in *. simpl in *. lia.
  - (* failure, then the call *)
    eapply (Hcall (_ :: fail_log now it0 r m)); simpl; eauto.
    intros j ->. unfold wait_of in *. simpl in *. lia.
  - (* handlers *)
    assert (worker_event e = false) as Hwe by (by destruct e).
    rewrite Hwe in Hw.
    eapply (Hsame new i it); simpl; eauto using issued_handler.
Qed.

(** C10.  A request that waits in the queue is called upstream, whatever
    the cache holds by then.  In every state the program reaches: a
    callback that takes an item off the queue issues the call for that item
    in the same callback; a callback of the worker does the same to the
    queue, the log, the timestamp, the flag and the worker whatever the
    cache holds, so there is no second look at the cache; the calls issued
    for a key plus the items queued for it never go down; a non-empty queue
    has a worker, and the callback that worker waits for (its timer, or the
    answer to its call) can run; and the item at position [i] of the queue
    has had its call issued, after those of the items before it, once
    [wait_of st i] callbacks of the worker have run of which none is an
    answer 429, whatever requests arrive in between.  (While upstream keeps
    answering 429 for an item, the items behind it wait.) *)
Theorem dequeued_item_is_called tr st :
  run tr init = Some st →
  (∀ now e st',
     step now e st = Some st' →
     (length (queue st') < length (queue st))%nat →
     ∃ it (pre : list obs),
       queue st = it :: queue st' ∧ workers st' = [AwaitCall it] ∧
       log st' = Issued Worker now (Jikan (endpoint it)) :: pre ++ log st) ∧
  (∀ now e c,
     match e with Timer _ | Response _ _ => True | _ => False end →
     set_cache ∅ <$> step now e (set_cache c st) =
     set_cache ∅ <$> step now e st) ∧
  (∀ tr' st' K,
     run tr' st = Some st' →
     (calls_for K (log st) + queued_for K (queue st)
      ≤ calls_for K (log st') + queued_for K (queue st'))%nat) ∧
  (queue st ≠ [] →
   isProcessingQueue st = true ∧
   ((∀ now, is_Some (step now (Timer 0) st)) ∨
    (∀ now o, is_Some (step now (Response 0 o) st)))) ∧
  (∀ i it tr' st',
     queue st !! i = Some it →
     run tr' st = Some st' →
     forallb (λ x, negb (is_refusal x.2)) tr' = true →
     (wait_of st i ≤ worker_events tr')%nat →
     ∃ (new : list obs) rest,
       log st' = new ++ log st ∧
       rev (issued new) = map call_of (take (S i) (queue st)) ++ rest).
Proof.
  intros Hr. pose proof (reachable_guard _ _ Hr) as Hg.
  split; [|split; [|split; [|split]]].
  - intros now e st'. by apply dequeue_is_call.
  - intros now e c. apply worker_step_ignores_cache.
  - intros tr' st' K. apply (run_served K tr').
  - by apply queued_worker_enabled.
  - intros i it tr' st'. by apply no_starvation.
Qed.

(** ** Cache hits (C2) *)

Lemma last_success_handler K now new l :
  Forall (handler_obs now) new → last_success K (new ++ l) = last_success K l.
Proof.
  induction 1 as [|o new Ho _ IH]; [done|]. simpl.
  by destruct o as [[]| [] | |].
Qed.

Lemma in_handler now new l t u o :
  Forall (handler_obs now) new →
  In (Settled Worker t u o) (new ++ l) → In (Settled Worker t u o) l.
Proof.
  intros Hnew Hin. apply in_app_or in Hin as [Hin|]; [|done].
  rewrite Forall_forall in Hnew.
  apply list_elem_of_In, Hnew in Hin. done.
Qed.

Lemma cache_is_last_success tr st K :
  run tr init = Some st → cache st !! K = last_success K (log st).
Proof.
  intros Hr.
  apply (run_invariant (λ st, cache st !! K = last_success K (log st)))
    with (tr := tr) (st := init); auto using init_guard.
  clear. intros now e st st' _ HP Ht.
  destruct Ht; simpl in *; try done.
  - unfold stored. destruct (String.eqb_spec (endpoint it) K) as [->|Hne].
    + by rewrite lookup_insert_eq.
    + by rewrite lookup_insert_ne.
  - unfold stored. destruct (String.eqb_spec (endpoint it) K) as [->|Hne].
    + by rewrite lookup_insert_eq.
    + by rewrite lookup_insert_ne.
  - by rewrite (last_success_handler K now).
Qed.

Lemma timely_clock now e st : timely now e st = true → clock st ≤ now.
Proof. unfold timely. intros [H _]%andb_prop. lia. Qed.

Lemma stamps_quiet c ck lg now new :
  stamps c ck lg → ck ≤ now → no_success new → stamps c now (new ++ lg).
Proof.
  intros [Hc Hl] Hck Hnew. split.
  - intros K e He. specialize (Hc _ _ He). lia.
  - intros t K s d [Hin|Hin]%in_app_or; [by apply Hnew in Hin | eauto].
Qed.

Lemma stamps_ok c ck lg now it s d :
  stamps c ck lg → ck ≤ now →
  stamps (stored now it d c) now (ok_log now it s d ++ lg).
Proof.
  intros [Hc Hl] Hck. unfold stored. split.
  - intros K e. destruct (decide (endpoint it = K)) as [->|Hne].
    + rewrite lookup_insert_eq. intros; simplify_eq/=. lia.
    + rewrite lookup_insert_ne by done. intros He.
      specialize (Hc _ _ He). lia.
  - intros t K s' d' [|[|[Heq|Hin]]]; try done.
    + simplify_eq. eexists. rewrite lookup_insert_eq. split; [done|].
      simpl. lia.
    + destruct (Hl _ _ _ _ Hin) as (e & He & Hle).
      destruct (decide (endpoint it = K)) as [->|Hne].
      * rewrite lookup_insert_eq. eexists; split; [done|]. simpl.
        specialize (Hc _ _ He). lia.
      * rewrite lookup_insert_ne by done. eauto.
Qed.

Lemma no_success_handler now new :
  Forall (handler_obs now) new → no_success new.
Proof.
  intros Hnew t u s d Hin. rewrite Forall_forall in Hnew.
  by apply list_elem_of_In, Hnew in Hin.
Qed.

Ltac no_success :=
  intros ? ? ? ? Hin; simpl in Hin;
  repeat (destruct Hin as [Hin|Hin]; [done|]); done.

Lemma stamps_step now e st st' :
  guard_inv st → stamps_inv st → timely now e st = true →
  trans now st e st' → stamps_inv st'.
Proof.
  unfold stamps_inv. intros _ Hst Ht%timely_clock Htr.
  destruct Htr; simpl in *.
  - apply (stamps_quiet c ck lg now [_]); [done..|no_success].
  - apply (stamps_quiet c ck lg now []); [done..|no_success].
  - apply (stamps_quiet c ck lg now []); [done..|no_success].
  - apply (stamps_quiet c ck lg now [_]); [done..|no_success].
  - apply (stamps_quiet c ck lg now [_]); [done..|no_success].
  - apply (stamps_quiet c ck lg now []); [done..|no_success].
  - apply (stamps_quiet c ck lg now [_]); [done..|no_success].
  - by apply (stamps_ok c ck).
  - by apply (stamps_ok c ck).
  - apply (stamps_quiet c ck lg now [_]); [done..|no_success].
  - apply (stamps_quiet c ck lg now (fail_log now it r m)); [done..|no_success].
  - apply (stamps_quiet c ck lg now (fail_log now it r m)); [done..|no_success].
  - apply (stamps_quiet c ck lg now (_ :: fail_log now it r m));
      [done..|no_success].
  - apply (stamps_quiet c ck); eauto using no_success_handler.
Qed.

Lemma init_stamps : stamps_inv init.
Proof. split; simpl; [intros K e; by rewrite lookup_empty | done]. Qed.

(** C2, as the code has it.  A call of the worker for [K] has succeeded at
    time [t], and a request for [K] arrives less than [CACHE_DURATION]
    after [t].  Then the request is answered at once from the cache: the
    state is the one before, with the reply added to the log, so no call is
    issued and nothing is queued.  The payload is the one the cache holds,
    stored by the newest successful call for [K]: that of the success at
    [t] when no later call for [K] has succeeded since. *)
Theorem fresh_entry_is_served_from_cache tr st K t s d now r :
  well_timed tr init = true →
  run tr init = Some st →
  In (Settled Worker t (Jikan K) (Ok s d)) (log st) →
  clock st ≤ now →
  now - t < CACHE_DURATION →
  ∃ e, last_success K (log st) = Some e ∧ t ≤ timestamp e ∧
       (last_success K (log st) = Some {| data := d; timestamp := t |} →
        data e = d) ∧
       step now (Fetch r K) st =
         Some (emit (Replied r 200 (BData (data e))) (set_clock now st)).
Proof.
  intros Hwt Hr Hin Hck Httl.
  assert (stamps_inv st) as [Hc Hl].
  { eapply (timed_invariant stamps_inv); eauto using init_guard, init_stamps.
    apply stamps_step. }
  destruct (Hl _ _ _ _ Hin) as (e & He & Hle).
  exists e. rewrite <- (cache_is_last_success tr st K Hr).
  split; [done|]. split; [done|]. split.
  - rewrite He. by intros [= ->].
  - unfold step, proxyRequest. simpl. rewrite He. simpl.
    replace (now - timestamp e <? CACHE_DURATION) with true; [done|].
    symmetry. apply Z.ltb_lt. lia.
Qed.

(** ** Spacing (C3) *)

Lemma handler_obs_quiet now o : handler_obs now o → by_worker o = false.
Proof. by destruct o as [[]| [] | |]. Qed.

Lemma prev_throttle_quiet new l :
  Forall (λ o, by_worker o = false) new →
  prev_throttle (new ++ l) = prev_throttle l.
Proof.
  induction 1 as [|o new Ho _ IH]; [done|]. simpl.
  by destruct o as [[]| [] | |].
Qed.

Lemma spaced_quiet new l :
  Forall (λ o, by_worker o = false) new → spaced l → spaced (new ++ l).
Proof.
  induction 1 as [|o new Ho _ IH]; [done|]. simpl. intros Hl.
  split; [|by apply IH]. by destruct o as [[]| [] | |].
Qed.

Lemma in_quiet new l t u o :
  Forall (λ o, by_worker o = false) new →
  In (Settled Worker t u o) (new ++ l) → In (Settled Worker t u o) l.
Proof.
  intros Hnew Hin. apply in_app_or in Hin as [Hin|]; [|done].
  rewrite Forall_forall in Hnew.
  by apply list_elem_of_In, Hnew in Hin.
Qed.

Lemma init_pace : pace_inv init.
Proof. unfold pace_inv; simpl. repeat split; try done. Qed.

Lemma timely_timer now st due :
  timely now (Timer 0) st = true →
  workers st = [AwaitGate due] ∨ workers st = [AwaitBackoff due] →
  due ≤ now.
Proof.
  unfold timely. intros [_ H]%andb_prop [Hw|Hw]; rewrite Hw in H;
    simpl in H; lia.
Qed.

Ltac zlia := unfold gate_due, RATE_LIMIT_DELAY in *; lia.

Lemma pace_step now e st st' :
  guard_inv st → pace_inv st → timely now e st = true →
  trans now st e st' → pace_inv st'.
Proof.
  unfold pace_inv. intros _ (Hsp & Hlc & Hok & Hw) Ht Htr.
  pose proof (timely_clock _ _ _ Ht) as Hck.
  pose proof (timely_timer now st) as Hdue.
  assert (∀ t u s d, In (Settled Worker t u (Ok s d)) (log st) → t ≤ now)
    as Hok' by (intros ???? Hin; specialize (Hok _ _ _ _ Hin); lia).
  destruct Htr; simpl in *; unfold may_start; simpl.
  14: {
    assert (Forall (λ o, by_worker o = false) new) as Hq.
    { eapply Forall_impl; [done|]. apply handler_obs_quiet. }
    rewrite (prev_throttle_quiet new lg Hq).
    repeat split; auto using spaced_quiet; try lia.
    intros ???? Hin. eauto using in_quiet. }
  all: try match goal with
           | H : throttled _ = _ |- _ => rewrite ?H
           end;
    try match goal with
        | H : _ ∧ _ |- _ => destruct H as [Hw1 Hw2]
        end;
    try (specialize (Hdue due Ht (or_introl eq_refl)));
    try (specialize (Hdue due Ht (or_intror eq_refl)));
    try (exfalso; zlia).
  all: repeat split; try done; try zlia.
  all: try (intros ? ? ? ? Hin; simpl in Hin;
            repeat (destruct Hin as [Hin|Hin]; [simplify_eq; try zlia|]);
            try (specialize (Hok _ _ _ _ Hin); zlia); try done).
  all: try (intros t1 Hp; try congruence; simplify_eq;
            try (specialize (Hw2 _ Hp)); zlia).
  all: try (destruct ws as [|[] []]; simpl in *; done).
Qed.

Lemma reachable_pace tr st :
  well_timed tr init = true → run tr init = Some st → pace_inv st.
Proof.
  intros Hwt Hr.
  eapply (timed_invariant pace_inv); eauto using init_guard, init_pace.
  apply pace_step.
Qed.

Lemma spaced_app l2 l1 : spaced (l2 ++ l1) → spaced l1.
Proof. induction l2 as [|o l2 IH]; [done|]. simpl. intros [_ H]. auto. Qed.

Lemma prev_throttle_filter l t u r m l0 :
  filter by_worker l = Settled Worker t u (Err r m) :: l0 →
  throttled r = true → prev_throttle l = Some t.
Proof.
  intros Hf Hth. induction l as [|o l IH]; [done|].
  destruct (by_worker o) eqn:Hb.
  - rewrite filter_cons_True in Hf by (by apply Is_true_true).
    simplify_eq. simpl. by rewrite Hth.
  - rewrite filter_cons_False in Hf by (by apply Is_true_false).
    specialize (IH Hf). by destruct o as [[]| [] | |].
Qed.

(** C3, as the code has it.  A call of the queue worker starts at least
    [RATE_LIMIT_DELAY] after the completion of every earlier call of the
    worker that succeeded, and at least [RATE_LIMIT_DELAY] after the
    completion of the call before it when that call was answered 429.
    (Nothing is said after a call that failed for good, nor about the calls
    of the watch and episodes handlers.) *)
Theorem worker_calls_spaced tr st (l2 l1 : list obs) t2 u2 :
  well_timed tr init = true →
  run tr init = Some st →
  log st = l2 ++ Issued Worker t2 u2 :: l1 →
  (∀ t1 u1 s d, In (Settled Worker t1 u1 (Ok s d)) l1 →
                t1 + RATE_LIMIT_DELAY ≤ t2) ∧
  (∀ t1 u1 r m l0,
     filter by_worker l1 = Settled Worker t1 u1 (Err r m) :: l0 →
     throttled r = true → t1 + RATE_LIMIT_DELAY ≤ t2).
Proof.
  intros Hwt Hr Hlog.
  destruct (reachable_pace tr st Hwt Hr) as (Hsp & _).
  rewrite Hlog in Hsp. apply spaced_app in Hsp as [[H1 H2] _].
  split; [done|]. intros t1 u1 r m l0 Hf Hth.
  apply H2. by eapply prev_throttle_filter.
Qed.

(** ** Running a guarded state *)

Lemma proxyRequest_miss now r ep st :
  fresh now (cache st !! ep) = false →
  proxyRequest now r ep st =
    processQueue now (set_queue (queue st ++ [item_of r ep]) st).
Proof.
  unfold proxyRequest. intros Hf.
  destruct (cache st !! ep); [by rewrite Hf | done].
Qed.

Lemma trans_step now e st st' :
  trans now st e st' → core_event e = true → step now e st = Some st'.
Proof.
  intros Ht He. destruct Ht; try congruence; unfold step; simpl;
    rewrite ?proxyRequest_miss by done;
    unfold processQueue, resume, on_settled; rewrite ?while_loop_eq; simpl;
    repeat match goal with
      | H : throttled _ = _ |- _ => rewrite H
      | H : _ < RATE_LIMIT_DELAY |- _ => apply Z.ltb_lt in H; rewrite H
      | H : RATE_LIMIT_DELAY ≤ _ |- _ => apply Z.ltb_ge in H; rewrite H
      end; try done.
  - unfold proxyRequest; simpl. rewrite H. simpl.
    apply Z.ltb_lt in H0. by rewrite H0.
  - replace (now - now <? RATE_LIMIT_DELAY) with true; [done|].
    symmetry. apply Z.ltb_lt. unfold RATE_LIMIT_DELAY. lia.
Qed.

Lemma run_cons now e tr st st' :
  step now e st = Some st' → run ((now, e) :: tr) st = run tr st'.
Proof. intros Hs. simpl. by rewrite Hs. Qed.

Ltac run_step lem :=
  erewrite run_cons;
  [| apply trans_step; [apply lem; try done | done]].

(** ** Throttling (C4) *)

Lemma worker_log_quiet (new l : list obs) :
  Forall (λ o, by_worker o = false) new →
  filter by_worker (new ++ l) = filter by_worker l.
Proof.
  induction 1 as [|o new Ho _ IH]; [done|]. simpl.
  rewrite filter_cons_False; [done | by apply Is_true_false].
Qed.

(** While the worker sleeps after a 429, no callback but its timer touches
    the worker, the head of the queue or the calls made so far. *)
Lemma parked_step now e st st' due :
  trans now st e st' → is_timer e = false →
  workers st = [AwaitBackoff due] →
  workers st' = [AwaitBackoff due] ∧ worker_log st' = worker_log st ∧
  (∃ extra, queue st' = queue st ++ extra) ∧
  lastRequestTime st' = lastRequestTime st.
Proof.
  intros Ht He Hw. unfold worker_log.
  destruct Ht; simpl in *; try done.
  - split; [done|]. split; [|split; [|done]].
    + rewrite filter_cons_False; [done | by apply Is_true_false].
    + exists []. by rewrite app_nil_r.
  - split; [congruence|]. split; [done|]. split; [by eexists | done].
  - split; [done|]. split; [|split; [|done]].
    + apply worker_log_quiet. eapply Forall_impl; [done|].
      apply handler_obs_quiet.
    + exists []. by rewrite app_nil_r.
Qed.

Lemma parked_run mid : ∀ st st' due,
  guard_inv st → forallb (λ x, negb (is_timer x.2)) mid = true →
  run mid st = Some st' → workers st = [AwaitBackoff due] →
  workers st' = [AwaitBackoff due] ∧ worker_log st' = worker_log st ∧
  (∃ extra, queue st' = queue st ++ extra) ∧
  lastRequestTime st' = lastRequestTime st.
Proof.
  induction mid as [|[now e] mid IH]; intros st st' due Hg Hm Hr Hw;
    simpl in *.
  - simplify_eq. repeat split; try done. exists []. by rewrite app_nil_r.
  - destruct (step now e st) as [st1|] eqn:Hs; [|done].
    apply andb_prop in Hm as [He Hm]. apply negb_true_iff in He.
    destruct (parked_step now e st st1 due) as (H1 & H2 & [x1 H3] & H4);
      eauto using step_trans.
    destruct (IH st1 st' due) as (H1' & H2' & [x2 H3'] & H4');
      eauto using step_guard.
    repeat split; try congruence.
    exists (x1 ++ x2). by rewrite H3', H3, app_assoc.
Qed.

(** The scenario of C4: requests for [A] and [B], the call for [A] is
    answered 429 once.  The worker calls [A], [A] again, then [B]. *)
Lemma throttled_once_order tr st A B t1 t2 s1 g1 s2 g2 s3 r m c1 c2 PA PB :
  run tr init = Some st →
  workers st = [] →
  cache st !! A = None → cache st !! B = None →
  throttled r = true →
  RATE_LIMIT_DELAY ≤ t1 - lastRequestTime st →
  RATE_LIMIT_DELAY ≤ g1 - lastRequestTime st →
  ∃ st',
    run (throttled_once A B t1 t2 s1 g1 s2 g2 s3 r m c1 c2 PA PB) st
      = Some st' ∧
    worker_log st' =
      [Settled Worker s3 (Jikan B) (Ok c2 PB);
       Issued Worker g2 (Jikan B);
       Settled Worker s2 (Jikan A) (Ok c1 PA);
       Issued Worker g1 (Jikan A);
       Settled Worker s1 (Jikan A) (Err r m);
       Issued Worker t1 (Jikan A)] ++ worker_log st.
Proof.
  intros Hr Hw HA HB Hth Hgate Hgate'.
  pose proof (reachable_guard _ _ Hr) as Hg.
  destruct st as [c l q f ws hs ck lg]. simpl in Hw, HA, HB, Hgate, Hgate'.
  subst ws. destruct Hg as [Hf Hq]. simpl in Hf, Hq. subst f q.
  assert (∀ t, fresh t (c !! A) = false) as HmissA by (by rewrite HA).
  assert (∀ t, fresh t (c !! B) = false) as HmissB by (by rewrite HB).
  eexists. unfold throttled_once.
  run_step t_miss_call.
  run_step t_miss_busy.
  run_step t_throttled.
  run_step t_backoff_call.
  run_step t_ok_gate.
  run_step t_gate_wake.
  run_step t_ok_exit.
  split; reflexivity.
Qed.

(** C4.  The call of item [it] is answered 429.  The callback puts [it]
    back at the head of the queue and sets one timer of
    [RATE_LIMIT_DELAY]; the caller gets no reply.  Whatever requests arrive
    while the worker sleeps, when that timer fires the worker calls upstream
    for [it] again, at once: the calls of the worker are the 429 and then
    the retry, with no call for another item in between.  So, with
    requests for [A] and then [B] and the call for [A] answered 429 once,
    the calls are [A] (429), [A] (success), [B]. *)
Theorem throttled_item_retried_first tr st it now r m mid st2 now' :
  well_timed tr init = true →
  run tr init = Some st →
  workers st = [AwaitCall it] →
  throttled r = true →
  clock st ≤ now →
  forallb (λ x, negb (is_timer x.2)) mid = true →
  (∃ st1,
    step now (Response 0 (Err r m)) st = Some st1 ∧
    queue st1 = it :: queue st ∧
    workers st1 = [AwaitBackoff (now + RATE_LIMIT_DELAY)] ∧
    log st1 = Settled Worker now (Jikan (endpoint it)) (Err r m) :: log st ∧
    (well_timed mid st1 = true → run mid st1 = Some st2 →
     timely now' (Timer 0) st2 = true →
     ∃ st3,
       step now' (Timer 0) st2 = Some st3 ∧
       workers st3 = [AwaitCall it] ∧
       worker_log st3 =
         Issued Worker now' (Jikan (endpoint it))
         :: Settled Worker now (Jikan (endpoint it)) (Err r m)
         :: worker_log st ∧
       now + RATE_LIMIT_DELAY ≤ now')) ∧
  (∀ tr0 st0 A B t1 t2 s1 g1 s2 g2 s3 c1 c2 PA PB,
     run tr0 init = Some st0 →
     workers st0 = [] →
     cache st0 !! A = None → cache st0 !! B = None →
     RATE_LIMIT_DELAY ≤ t1 - lastRequestTime st0 →
     RATE_LIMIT_DELAY ≤ g1 - lastRequestTime st0 →
     ∃ st',
       run (throttled_once A B t1 t2 s1 g1 s2 g2 s3 r m c1 c2 PA PB) st0
         = Some st' ∧
       worker_log st' =
         [Settled Worker s3 (Jikan B) (Ok c2 PB);
          Issued Worker g2 (Jikan B);
          Settled Worker s2 (Jikan A) (Ok c1 PA);
          Issued Worker g1 (Jikan A);
          Settled Worker s1 (Jikan A) (Err r m);
          Issued Worker t1 (Jikan A)] ++ worker_log st0).
Proof.
  intros Hwt Hr Hw Hth Hck Hmid.
  split; [|intros; by eapply throttled_once_order].
  pose proof (reachable_guard _ _ Hr) as Hg.
  pose proof (reachable_pace _ _ Hwt Hr) as Hp.
  assert (timely now (Response 0 (Err r m)) st = true) as Ht.
  { unfold timely. rewrite andb_true_r. apply Z.leb_le. lia. }
  destruct st as [c l q f ws hs ck lg]. simpl in Hw. subst ws.
  assert (f = true) as -> by apply Hg.
  pose proof (t_throttled now c l it q hs ck lg r m Hth) as Htr.
  eexists. split; [by apply trans_step|].
  split; [done|]. split; [done|]. split; [done|].
  intros Hwt1 Hr1 Ht2.
  pose proof (trans_guard _ _ _ _ Hg Htr) as Hg1.
  pose proof (pace_step _ _ _ _ Hg Hp Ht Htr) as Hp1.
  pose proof (run_guard _ _ _ Hg1 Hr1) as Hg2.
  pose proof (timed_invariant pace_inv pace_step mid _ st2 Hg1 Hp1 Hwt1 Hr1)
    as Hp2.
  destruct (parked_run mid _ st2 _ Hg1 Hmid Hr1 eq_refl)
    as (Hw2 & Hl2 & [extra Hq2] & Hlast).
  pose proof (timely_timer _ _ _ Ht2 (or_intror Hw2)) as Hdue.
  destruct st2 as [c2 l2 q2 f2 ws2 hs2 ck2 lg2].
  simpl in Hw2, Hq2, Hlast, Hdue. subst ws2 q2 l2.
  assert (f2 = true) as -> by apply Hg2.
  destruct Hp2 as (_ & _ & _ & Hgate & _). simpl in Hgate.
  eexists. split.
  - apply trans_step; [|done]. apply t_backoff_call. lia.
  - split; [done|]. split; [|done].
    unfold worker_log in *. simpl in *.
    rewrite filter_cons_True by done. by rewrite Hl2.
Qed.

(** ** Concurrent requests for one key (C1) *)

Lemma guard_in_flight_for K st : guard_inv st → (in_flight_for K st ≤ 1)%nat.
Proof.
  intros Hg%guard_length. unfold in_flight_for.
  etrans; [apply length_filter | done].
Qed.

Lemma refused_for_cons K o l :
  refused_for K (o :: l) =
    ((if is_refusal_for K o then 1 else 0) + refused_for K l)%nat.
Proof.
  unfold refused_for. destruct (is_refusal_for K o) eqn:E.
  - rewrite filter_cons_True; [done | by apply Is_true_true].
  - rewrite filter_cons_False; [done | by apply Is_true_false].
Qed.

Lemma refused_for_handler K now new l :
  Forall (handler_obs now) new → refused_for K (new ++ l) = refused_for K l.
Proof.
  induction 1 as [|o new Ho _ IH]; [done|]. simpl.
  rewrite refused_for_cons, IH. by destruct o as [[]| [] | |].
Qed.

(** Every call for [K] answers one request for [K] that missed the cache,
    or repeats a call that was answered 429. *)
Lemma account_step K now e st st' :
  guard_inv st → step now e st = Some st' →
  (calls_for K (log st') + queued_for K (queue st') + refused_for K (log st) =
   calls_for K (log st) + queued_for K (queue st) + refused_for K (log st') +
   match e with
   | Fetch _ ep =>
       if fresh now (cache st !! ep) then 0
       else if String.eqb ep K then 1 else 0
   | _ => 0
   end)%nat.
Proof.
  intros Hg Hs. pose proof (step_trans _ _ _ _ Hg Hs) as Ht.
  destruct Ht; simpl in *; unfold ok_log, fail_log;
    rewrite ?queued_for_app; simpl;
    rewrite ?calls_for_cons, ?queued_for_cons, ?refused_for_cons; simpl;
    change (queued_for K []) with 0%nat;
    unfold is_for; simpl;
    repeat match goal with
      | H : throttled _ = _ |- _ => rewrite H
      | H : fresh _ _ = _ |- _ => rewrite H
      end; simpl; try lia.
  - rewrite H. simpl. apply Z.ltb_lt in H0. rewrite H0. lia.
  - rewrite (calls_for_handler K now), (refused_for_handler K now) by done.
    destruct e; try done; lia.
Qed.

Lemma account_run K tr : ∀ st st',
  guard_inv st → run tr st = Some st' →
  (calls_for K (log st') + queued_for K (queue st') + refused_for K (log st) =
   calls_for K (log st) + queued_for K (queue st) + refused_for K (log st') +
   misses_for K tr st)%nat.
Proof.
  induction tr as [|[now e] tr IH]; intros st st' Hg Hr; simpl in *.
  - simplify_eq. lia.
  - destruct (step now e st) as [st1|] eqn:Hs; [|done].
    pose proof (IH st1 st' (step_guard _ _ _ _ Hg Hs) Hr) as H1.
    pose proof (account_step K now e st st1 Hg Hs) as H0.
    lia.
Qed.

Lemma arrivals_queue K c l hs it lg : ∀ ts k ck q,
  c !! K = None →
  ∃ ck',
    run (arrivals K k ts) (State c l q true [AwaitCall it] hs ck lg) =
    Some (State c l (q ++ callers K k (length ts)) true [AwaitCall it] hs
            ck' lg).
Proof.
  induction ts as [|t ts IH]; intros k ck q Hc; cbn [arrivals].
  - exists ck. simpl. unfold callers. simpl. by rewrite app_nil_r.
  - destruct (IH (S k) t (q ++ [item_of k K]) Hc) as [ck' Hrun].
    exists ck'. run_step t_miss_busy; [|by rewrite Hc].
    rewrite Hrun. unfold callers. simpl. by rewrite <- app_assoc.
Qed.

Lemma serve_run answers : ∀ it q c l hs ck lg,
  length answers = S (length q) →
  ∃ c' l' ck',
    run (serve answers) (State c l q true [AwaitCall it] hs ck lg) =
    Some (State c' l' [] false [] hs ck' (serve_log it q answers ++ lg)).
Proof.
  induction answers as [|a rest IH]; intros it q c l hs ck lg Hlen;
    [done|].
  destruct q as [|it' q].
  - destruct rest; [|done]. cbn [serve serve_log].
    do 3 eexists. run_step t_ok_exit. reflexivity.
  - destruct rest as [|b rest]; [done|]. cbn [serve serve_log].
    simpl in Hlen.
    destruct (IH it' q (stored (done_at a) it (payload a) c) (done_at a) hs
                (wake a)
                (Issued Worker (wake a) (Jikan (endpoint it'))
                 :: ok_log (done_at a) it (code a) (payload a) ++ lg))
      as (c' & l' & ck' & Hrun); [simpl; lia|].
    exists c', l', ck'.
    run_step t_ok_gate. run_step t_gate_wake.
    etrans; [exact Hrun|]. do 2 f_equal. by rewrite <- app_assoc.
Qed.

Lemma serve_log_calls K answers : ∀ it q,
  length answers = S (length q) →
  calls_for K (serve_log it q answers) = queued_for K q.
Proof.
  induction answers as [|a rest IH]; intros it q Hlen; [done|].
  destruct q as [|it' q]; simpl.
  - done.
  - simpl in Hlen. rewrite calls_for_app, calls_for_cons, queued_for_cons.
    rewrite IH by lia. unfold ok_log, is_for. simpl.
    rewrite !calls_for_cons. simpl. unfold calls_for. simpl. lia.
Qed.

Lemma serve_log_replies answers : ∀ it q i it_i a,
  (it :: q) !! i = Some it_i → answers !! i = Some a →
  In (Replied (res it_i) 200 (BData (payload a))) (serve_log it q answers).
Proof.
  induction answers as [|a0 rest IH]; intros it q i it_i a Hi Ha; [done|].
  destruct i as [|i]; simplify_eq/=.
  - destruct q; [by left|]. apply in_or_app. right. right. by left.
  - destruct q as [|it' q]; [done|]. apply in_or_app. left.
    by apply (IH it' q i).
Qed.

Lemma queued_for_callers K k n : queued_for K (callers K k n) = n.
Proof.
  revert k. induction n as [|n IH]; intros k; [done|].
  unfold callers in *. simpl. rewrite queued_for_cons, IH.
  unfold is_for. simpl. by rewrite String.eqb_refl.
Qed.

Lemma callers_lookup K k n i :
  (i < n)%nat → callers K k n !! i = Some (item_of (k + i) K).
Proof.
  intros Hi. unfold callers. rewrite list_lookup_fmap.
  by rewrite lookup_seq_lt.
Qed.

(** [n + 1] requests for an uncached key, the last [n] arriving while the
    call for the first is in flight; every call succeeds. *)
Lemma concurrent_run K k t ts answers c l hs ck lg :
  c !! K = None → RATE_LIMIT_DELAY ≤ t - l →
  length answers = S (length ts) →
  ∃ st1 st',
    run (arrivals K k (t :: ts)) (State c l [] false [] hs ck lg) = Some st1 ∧
    in_flight_for K st1 = 1%nat ∧
    queue st1 = callers K (S k) (length ts) ∧
    log st1 = Issued Worker t (Jikan K) :: lg ∧
    run (arrivals K k (t :: ts) ++ serve answers)
      (State c l [] false [] hs ck lg) = Some st' ∧
    workers st' = [] ∧ queue st' = [] ∧
    log st' =
      serve_log (item_of k K) (callers K (S k) (length ts)) answers
      ++ Issued Worker t (Jikan K) :: lg.
Proof.
  intros Hc Hgate Hlen.
  destruct (arrivals_queue K c l hs (item_of k K)
              (Issued Worker t (Jikan K) :: lg) ts (S k) t [] Hc)
    as [ck1 Hrun1].
  destruct (serve_run answers (item_of k K) (callers K (S k) (length ts))
              c l hs ck1 (Issued Worker t (Jikan K) :: lg))
    as (c' & l' & ck' & Hrun2).
  { unfold callers. by rewrite length_map, length_seq. }
  assert (run (arrivals K k (t :: ts)) (State c l [] false [] hs ck lg) =
          Some (State c l (callers K (S k) (length ts)) true
                  [AwaitCall (item_of k K)] hs ck1
                  (Issued Worker t (Jikan K) :: lg))) as Hrun.
  { cbn [arrivals]. run_step t_miss_call; [|by rewrite Hc]. exact Hrun1. }
  do 2 eexists. split; [exact Hrun|].
  split; [|split; [done|split; [done|]]].
  - unfold in_flight_for. simpl. rewrite filter_cons_True; [done|].
    apply Is_true_true. simpl. apply String.eqb_refl.
  - rewrite run_app, Hrun. simpl. rewrite Hrun2. done.
Qed.

Lemma callers_cons K k n :
  callers K k (S n) = item_of k K :: callers K (S k) n.
Proof. done. Qed.

(** C1, as the code has it.  In every state the program reaches, at most
    one call of the queue worker is in flight for a key.  But requests are
    not merged, no call answers two requests: the calls issued for [K] and
    the items queued for [K] add up to the requests for [K] that missed the
    cache plus the calls for [K] that were answered 429.  When [n + 1]
    requests for an uncached key arrive, the last [n] while the call for
    the first is in flight (one call in flight, [n] items queued), and
    every call succeeds, the worker makes [n + 1] calls for [K], each
    issued after the answer to the one before, and each caller is sent the
    payload of its own call. *)
Theorem concurrent_fetches_get_one_call_each tr st K :
  run tr init = Some st →
  (in_flight_for K st ≤ 1)%nat ∧
  (calls_for K (log st) + queued_for K (queue st) =
   misses_for K tr init + refused_for K (log st))%nat ∧
  (∀ k t ts answers,
     workers st = [] →
     cache st !! K = None →
     RATE_LIMIT_DELAY ≤ t - lastRequestTime st →
     length answers = S (length ts) →
     ∃ st1 st',
       run (arrivals K k (t :: ts)) st = Some st1 ∧
       in_flight_for K st1 = 1%nat ∧
       queue st1 = callers K (S k) (length ts) ∧
       run (arrivals K k (t :: ts) ++ serve answers) st = Some st' ∧
       log st' =
         serve_log (item_of k K) (callers K (S k) (length ts)) answers
         ++ Issued Worker t (Jikan K) :: log st ∧
       calls_for K (log st') = (S (length ts) + calls_for K (log st))%nat ∧
       (∀ i a, answers !! i = Some a →
               In (Replied (k + i) 200 (BData (payload a))) (log st'))).
Proof.
  intros Hr. pose proof (reachable_guard _ _ Hr) as Hg.
  split; [by apply guard_in_flight_for|]. split.
  - pose proof (account_run K tr init st init_guard Hr) as H.
    simpl in H. change (calls_for K []) with 0%nat in H.
    change (queued_for K []) with 0%nat in H.
    change (refused_for K []) with 0%nat in H. lia.
  - intros k t ts answers Hw Hc Hgate Hlen.
    destruct st as [c l q f ws hs ck lg]. simpl in Hw, Hc, Hgate. subst ws.
    destruct Hg as [Hf Hq]. simpl in Hf, Hq. subst f q.
    destruct (concurrent_run K k t ts answers c l hs ck lg Hc Hgate Hlen)
      as (st1 & st' & Hr1 & Hfl & Hq1 & _ & Hr' & _ & _ & Hlog).
    exists st1, st'. cbn [log].
    split; [done|]. split; [done|]. split; [done|]. split; [done|].
    split; [done|]. split.
    + rewrite Hlog, calls_for_app, calls_for_cons.
      rewrite serve_log_calls, queued_for_callers
        by (unfold callers; by rewrite length_map, length_seq).
      simpl. rewrite String.eqb_refl. lia.
    + intros i a Ha. rewrite Hlog. apply in_or_app. left.
      assert (i < length answers)%nat as Hi by (by eapply lookup_lt_Some).
      apply (serve_log_replies answers (item_of k K)
               (callers K (S k) (length ts)) i (item_of (k + i) K) a);
        [|done].
      rewrite <- callers_cons. apply callers_lookup. lia.
Qed.

(** ** Counterexamples and instances *)

(** C1, counterexample: three requests for one key within a second, the
    upstream answering each call with the same page, make three calls, not
    one. *)
Lemma burst_makes_three_calls :
  well_timed burst init = true ∧
  ∃ st, run burst init = Some st ∧
        calls_for recent (log st) = 3%nat ∧
        calls_for recent (log st) ≠ 1%nat.
Proof.
  split; [by vm_compute|]. eexists. split; [by vm_compute|].
  split; by vm_compute.
Qed.

(** C1, instance: in [two_pending] a call for [recent] is in flight and a
    second request for it is queued; and the three requests of [burst],
    from the initial state. *)
Lemma concurrent_fetches_get_one_call_each_witness :
  (run two_fetches init = Some two_pending ∧
   in_flight_for recent two_pending = 1%nat ∧
   (in_flight_for recent two_pending ≤ 1)%nat ∧
   (calls_for recent (log two_pending)
    + queued_for recent (queue two_pending) =
    misses_for recent two_fetches init
    + refused_for recent (log two_pending))%nat) ∧
  (run [] init = Some init ∧ workers init = [] ∧
   cache init !! recent = None ∧
   RATE_LIMIT_DELAY ≤ t0 - lastRequestTime init ∧
   length burst_answers = S (length [t0 + 300; t0 + 600]) ∧
   ∃ st1 st',
     run (arrivals recent 1 [t0; t0 + 300; t0 + 600]) init = Some st1 ∧
     in_flight_for recent st1 = 1%nat ∧
     queue st1 = [item_of 2 recent; item_of 3 recent] ∧
     run burst init = Some st' ∧
     log st' =
       [Replied 3 200 (BData page); Resolved 3 (Some page);
        Settled Worker (t0 + 3200) (Jikan recent) (Ok 200 page);
        Issued Worker (t0 + 3000) (Jikan recent);
        Replied 2 200 (BData page); Resolved 2 (Some page);
        Settled Worker (t0 + 2000) (Jikan recent) (Ok 200 page);
        Issued Worker (t0 + 1800) (Jikan recent);
        Replied 1 200 (BData page); Resolved 1 (Some page);
        Settled Worker (t0 + 800) (Jikan recent) (Ok 200 page)]
       ++ Issued Worker t0 (Jikan recent) :: log init ∧
     calls_for recent (log st') = (3 + calls_for recent (log init))%nat ∧
     (∀ i a, burst_answers !! i = Some a →
             In (Replied (1 + i) 200 (BData (payload a))) (log st'))).
Proof.
  split.
  - split; [by vm_compute|]. split; [by vm_compute|].
    pose proof (concurrent_fetches_get_one_call_each two_fetches two_pending
                  recent) as H.
    split; apply H; by vm_compute.
  - split; [reflexivity|]. split; [reflexivity|]. split; [reflexivity|].
    split; [by vm_compute|]. split; [reflexivity|].
    exact (proj2 (proj2 (concurrent_fetches_get_one_call_each [] init recent
                           eq_refl))
             1%nat t0 [t0 + 300; t0 + 600] burst_answers
             eq_refl eq_refl ltac:(by vm_compute) eq_refl).
Defined.

(** C2, counterexample: two requests for [recent] miss the cache
    together; the first call is answered [page], the second [page'].  A
    third request, less than a minute after the first success, is answered
    from the cache with [page'], which is not what the first success
    stored. *)
Lemma later_success_overwrites_payload :
  well_timed two_answers init = true ∧
  ∃ st,
    run two_answers init = Some st ∧
    In (Settled Worker (t0 + 800) (Jikan recent) (Ok 200 page)) (log st) ∧
    clock st ≤ t0 + 60000 ∧
    t0 + 60000 - (t0 + 800) < CACHE_DURATION ∧
    step (t0 + 60000) (Fetch 3 recent) st =
      Some (emit (Replied 3 200 (BData page')) (set_clock (t0 + 60000) st)) ∧
    page' ≠ page.
Proof.
  split; [by vm_compute|]. eexists. split; [by vm_compute|].
  split; [simpl; auto 10|]. split; [by vm_compute|]. split; [by vm_compute|].
  split; [by vm_compute | done].
Qed.

(** C2, instance: a request for [recent] one minute after it was fetched. *)
Lemma fresh_entry_is_served_from_cache_witness :
  well_timed one_success init = true ∧
  run one_success init = Some served_state ∧
  In (Settled Worker (t0 + 800) (Jikan recent) (Ok 200 page))
     (log served_state) ∧
  clock served_state ≤ t0 + 60000 ∧
  t0 + 60000 - (t0 + 800) < CACHE_DURATION ∧
  ∃ e, last_success recent (log served_state) = Some e ∧
       t0 + 800 ≤ timestamp e ∧
       (last_success recent (log served_state) =
          Some {| data := page; timestamp := t0 + 800 |} → data e = page) ∧
       step (t0 + 60000) (Fetch 2 recent) served_state =
         Some (emit (Replied 2 200 (BData (data e)))
                 (set_clock (t0 + 60000) served_state)).
Proof.
  assert (In (Settled Worker (t0 + 800) (Jikan recent) (Ok 200 page))
             (log served_state)) as Hin by (simpl; auto).
  split; [by vm_compute|]. split; [by vm_compute|]. split; [exact Hin|].
  split; [by vm_compute|]. split; [by vm_compute|].
  apply (fresh_entry_is_served_from_cache one_success served_state recent
           (t0 + 800) 200 page (t0 + 60000) 2);
    [by vm_compute | by vm_compute | exact Hin | by vm_compute
    | by vm_compute].
Defined.

(** C3, counterexample.  First, within the proxy core: a call that fails
    with a 500 is followed in the same callback by the call for the next
    item.  Second, over all calls of the program: a watch handler calls
    upstream 100 ms after a call of the worker has completed. *)
Lemma calls_closer_than_the_spacing :
  ¬ (∀ tr st,
       well_timed tr init = true → run tr init = Some st →
       ∀ (l2 l1 : list obs) t2 u2 t1 u1 o,
         worker_log st =
           l2 ++ Issued Worker t2 u2 :: Settled Worker t1 u1 o :: l1 →
         t1 + RATE_LIMIT_DELAY ≤ t2) ∧
  ¬ (∀ tr st,
       well_timed tr init = true → run tr init = Some st →
       ∀ (l2 l1 : list obs) i2 t2 u2 i1 t1 u1 o,
         call_log st = l2 ++ Issued i2 t2 u2 :: Settled i1 t1 u1 o :: l1 →
         t1 + RATE_LIMIT_DELAY ≤ t2).
Proof.
  split; intros H.
  - assert (∃ st, run failing_pair init = Some st ∧
              worker_log st =
                [] ++ Issued Worker (t0 + 400) (Jikan recent)
                :: Settled Worker (t0 + 400) (Jikan trending)
                     (Err status_500 "Request failed with status code 500")
                :: [Issued Worker t0 (Jikan trending)])
      as (st & Hr & Hl) by (eexists; split; by vm_compute).
    assert (well_timed failing_pair init = true) as Hwt by (by vm_compute).
    specialize (H failing_pair st Hwt Hr _ _ _ _ _ _ _ Hl).
    vm_compute in H. by apply H.
  - assert (∃ st, run warm_then_watch init = Some st ∧
              call_log st =
                [] ++ Issued Handler (t0 + 200) (Jikan "/anime/1/full")
                :: Settled Worker (t0 + 100) (Jikan "/anime/1/full")
                     (Ok 200 anime)
                :: [Issued Worker t0 (Jikan "/anime/1/full")])
      as (st & Hr & Hl) by (eexists; split; by vm_compute).
    assert (well_timed warm_then_watch init = true) as Hwt
      by (by vm_compute).
    specialize (H warm_then_watch st Hwt Hr _ _ _ _ _ _ _ _ _ Hl).
    vm_compute in H. by apply H.
Qed.

(** C3, instance: the second call of [two_calls] and the success before
    it. *)
Lemma worker_calls_spaced_witness :
  well_timed two_calls init = true ∧
  run two_calls init = Some two_calls_state ∧
  log two_calls_state =
    [] ++ Issued Worker (t0 + 1800) (Jikan recent)
    :: ok_log (t0 + 800) (item_of 1 recent) 200 page
    ++ [Issued Worker t0 (Jikan recent)] ∧
  (∀ t1 u1 s d,
     In (Settled Worker t1 u1 (Ok s d))
        (ok_log (t0 + 800) (item_of 1 recent) 200 page
         ++ [Issued Worker t0 (Jikan recent)]) →
     t1 + RATE_LIMIT_DELAY ≤ t0 + 1800) ∧
  (∀ t1 u1 r m l0,
     filter by_worker
       (ok_log (t0 + 800) (item_of 1 recent) 200 page
        ++ [Issued Worker t0 (Jikan recent)]) =
     Settled Worker t1 u1 (Err r m) :: l0 →
     throttled r = true → t1 + RATE_LIMIT_DELAY ≤ t0 + 1800).
Proof.
  split; [by vm_compute|]. split; [by vm_compute|]. split; [reflexivity|].
  apply (worker_calls_spaced two_calls two_calls_state []
           (ok_log (t0 + 800) (item_of 1 recent) 200 page
            ++ [Issued Worker t0 (Jikan recent)])
           (t0 + 1800) (Jikan recent));
    [by vm_compute | by vm_compute | reflexivity].
Defined.

(** C6, counterexample: a request through the proxy and a watch request;
    the call of the worker and the call of the handler are in flight
    together. *)
Lemma two_calls_in_flight :
  ¬ (∀ tr st, run tr init = Some st → (in_flight st ≤ 1)%nat).
Proof.
  intros H.
  assert (∃ st, run fetch_and_watch init = Some st ∧ in_flight st = 2%nat)
    as (st & Hr & Hn) by (eexists; split; by vm_compute).
  specialize (H _ _ Hr). lia.
Qed.

(** C6, instance. *)
Lemma one_worker_call_in_flight_witness :
  run one_fetch init = Some busy ∧
  (worker_calls busy ≤ 1)%nat ∧
  (forallb (λ x, core_event x.2) one_fetch = true → (in_flight busy ≤ 1)%nat).
Proof.
  split; [by vm_compute|].
  apply (one_worker_call_in_flight one_fetch busy). by vm_compute.
Defined.

(** C7, instance: the success that ends [one_success]. *)
Lemma lastRequestTime_only_on_success_witness :
  step (t0 + 800) (Response 0 (Ok 200 page)) busy = Some served_state ∧
  (lastRequestTime served_state ≠ lastRequestTime busy →
   ∃ w it s d, Response 0 (Ok 200 page) = Response w (Ok s d) ∧
               workers busy !! w = Some (AwaitCall it) ∧
               lastRequestTime served_state = t0 + 800) ∧
  (∀ w r m, Response 0 (Ok 200 page) = Response w (Err r m) →
            lastRequestTime served_state = lastRequestTime busy).
Proof.
  split; [by vm_compute|].
  apply (lastRequestTime_only_on_success (t0 + 800)
           (Response 0 (Ok 200 page)) busy served_state).
  by vm_compute.
Defined.

(** C8, instance. *)
Lemma worker_loop_guard_witness :
  run one_fetch init = Some busy ∧
  (∀ now, isProcessingQueue busy = true → processQueue now busy = busy) ∧
  (length (workers busy) ≤ 1)%nat ∧
  (isProcessingQueue busy = true ↔ workers busy ≠ []).
Proof.
  split; [by vm_compute|].
  apply (worker_loop_guard one_fetch busy). by vm_compute.
Defined.

(** C9, counterexample: the metadata of anime 1 is in the cache, 100 ms
    old, and the last call of the worker ended 100 ms ago.  A request
    through the proxy is answered from the cache; a watch request for the
    same anime calls upstream for the same metadata, at once, and leaves the
    queue empty. *)
Lemma watch_calls_upstream_on_fresh_entry :
  run warm init = Some warm_state ∧
  fresh (t0 + 200) (cache warm_state !! mal_endpoint "1") = true ∧
  t0 + 200 - lastRequestTime warm_state < RATE_LIMIT_DELAY ∧
  log (proxyRequest (t0 + 200) 2 (mal_endpoint "1") warm_state) =
    Replied 2 200 (BData anime) :: log warm_state ∧
  ∃ st', step (t0 + 200) (Watch 2 "1" (Some 1)) warm_state = Some st' ∧
         log st' =
           Issued Handler (t0 + 200) (Jikan (mal_endpoint "1"))
           :: log warm_state ∧
         queue st' = [].
Proof.
  split; [by vm_compute|]. split; [by vm_compute|]. split; [by vm_compute|].
  split; [by vm_compute|]. eexists. split; [by vm_compute|].
  split; by vm_compute.
Qed.

(** C9, instance: a watch request arrives while the worker is busy. *)
Lemma episode_resolution_bypasses_proxy_witness :
  core_event (Watch 2 "1" (Some 1)) = false ∧
  step (t0 + 10) (Watch 2 "1" (Some 1)) busy = Some busy_watched ∧
  cache busy_watched = cache busy ∧ queue busy_watched = queue busy ∧
  lastRequestTime busy_watched = lastRequestTime busy ∧
  isProcessingQueue busy_watched = isProcessingQueue busy ∧
  workers busy_watched = workers busy ∧
  ∃ new : list obs,
    log busy_watched = new ++ log busy ∧
    Forall (handler_obs (t0 + 10)) new ∧
    new = [Issued Handler (t0 + 10) (Jikan (mal_endpoint "1"))].
Proof.
  split; [reflexivity|]. split; [by vm_compute|].
  apply (episode_resolution_bypasses_proxy (t0 + 10) (Watch 2 "1" (Some 1))
           busy busy_watched); [reflexivity | by vm_compute].
Defined.

(** C10, instance: the second request for [recent] waits in the queue
    while the first call succeeds and fills the cache. *)
Lemma dequeued_item_is_called_witness :
  run one_waiting init = Some waiting_state ∧
  (∀ now e st',
     step now e waiting_state = Some st' →
     (length (queue st') < length (queue waiting_state))%nat →
     ∃ it (pre : list obs),
       queue waiting_state = it :: queue st' ∧
       workers st' = [AwaitCall it] ∧
       log st' =
         Issued Worker now (Jikan (endpoint it)) :: pre ++ log waiting_state) ∧
  (∀ now e c,
     match e with Timer _ | Response _ _ => True | _ => False end →
     set_cache ∅ <$> step now e (set_cache c waiting_state) =
     set_cache ∅ <$> step now e waiting_state) ∧
  (∀ tr' st' K,
     run tr' waiting_state = Some st' →
     (calls_for K (log waiting_state) + queued_for K (queue waiting_state)
      ≤ calls_for K (log st') + queued_for K (queue st'))%nat) ∧
  (queue waiting_state ≠ [] →
   isProcessingQueue waiting_state = true ∧
   ((∀ now, is_Some (step now (Timer 0) waiting_state)) ∨
    (∀ now o, is_Some (step now (Response 0 o) waiting_state)))) ∧
  (∀ i it tr' st',
     queue waiting_state !! i = Some it →
     run tr' waiting_state = Some st' →
     forallb (λ x, negb (is_refusal x.2)) tr' = true →
     (wait_of waiting_state i ≤ worker_events tr')%nat →
     ∃ (new : list obs) rest,
       log st' = new ++ log waiting_state ∧
       rev (issued new) =
         map call_of (take (S i) (queue waiting_state)) ++ rest).
Proof.
  split; [by vm_compute|].
  apply (dequeued_item_is_called one_waiting waiting_state).
  by vm_compute.
Defined.

(** In [waiting_state] the cache holds a fresh entry for the key of the
    queued request; the one callback it waits for, the spacing timer, calls
    upstream for it all the same. *)
Lemma queued_request_called_despite_fresh_entry :
  queue waiting_state !! 0%nat = Some (item_of 2 recent) ∧
  fresh (t0 + 1800) (cache waiting_state !! recent) = true ∧
  run timer_fires waiting_state = Some two_calls_state ∧
  forallb (λ x, negb (is_refusal x.2)) timer_fires = true ∧
  (wait_of waiting_state 0 ≤ worker_events timer_fires)%nat ∧
  log two_calls_state =
    [Issued Worker (t0 + 1800) (Jikan recent)] ++ log waiting_state.
Proof. repeat split; by vm_compute. Qed.

(** C4, instance: the call of [busy] is answered 429, a request for
    [trending] arrives during the back-off, the timer fires after one
    second. *)
Lemma throttled_item_retried_first_witness :
  well_timed one_fetch init = true ∧
  run one_fetch init = Some busy ∧
  workers busy = [AwaitCall (item_of 1 recent)] ∧
  throttled status_429 = true ∧
  clock busy ≤ t0 + 400 ∧
  forallb (λ x, negb (is_timer x.2)) [(t0 + 500, Fetch 2 trending)] = true ∧
  ((∃ st1,
     step (t0 + 400) (Response 0 (Err status_429 "429")) busy = Some st1 ∧
     queue st1 = item_of 1 recent :: queue busy ∧
     workers st1 = [AwaitBackoff (t0 + 400 + RATE_LIMIT_DELAY)] ∧
     log st1 =
       Settled Worker (t0 + 400) (Jikan (endpoint (item_of 1 recent)))
         (Err status_429 "429") :: log busy ∧
     (well_timed [(t0 + 500, Fetch 2 trending)] st1 = true →
      run [(t0 + 500, Fetch 2 trending)] st1 = Some backoff_state →
      timely (t0 + 1400) (Timer 0) backoff_state = true →
      ∃ st3,
        step (t0 + 1400) (Timer 0) backoff_state = Some st3 ∧
        workers st3 = [AwaitCall (item_of 1 recent)] ∧
        worker_log st3 =
          Issued Worker (t0 + 1400) (Jikan (endpoint (item_of 1 recent)))
          :: Settled Worker (t0 + 400) (Jikan (endpoint (item_of 1 recent)))
               (Err status_429 "429")
          :: worker_log busy ∧
        t0 + 400 + RATE_LIMIT_DELAY ≤ t0 + 1400)) ∧
   (∀ tr0 st0 A B t1 t2 s1 g1 s2 g2 s3 c1 c2 PA PB,
      run tr0 init = Some st0 →
      workers st0 = [] →
      cache st0 !! A = None → cache st0 !! B = None →
      RATE_LIMIT_DELAY ≤ t1 - lastRequestTime st0 →
      RATE_LIMIT_DELAY ≤ g1 - lastRequestTime st0 →
      ∃ st',
        run (throttled_once A B t1 t2 s1 g1 s2 g2 s3 status_429 "429"
               c1 c2 PA PB) st0 = Some st' ∧
        worker_log st' =
          [Settled Worker s3 (Jikan B) (Ok c2 PB);
           Issued Worker g2 (Jikan B);
           Settled Worker s2 (Jikan A) (Ok c1 PA);
           Issued Worker g1 (Jikan A);
           Settled Worker s1 (Jikan A) (Err status_429 "429");
           Issued Worker t1 (Jikan A)] ++ worker_log st0)).
Proof.
  split; [by vm_compute|]. split; [by vm_compute|]. split; [reflexivity|].
  split; [reflexivity|]. split; [by vm_compute|]. split; [reflexivity|].
  apply (throttled_item_retried_first one_fetch busy (item_of 1 recent)
           (t0 + 400) status_429 "429" [(t0 + 500, Fetch 2 trending)]
           backoff_state (t0 + 1400));
    [by vm_compute | by vm_compute | reflexivity | reflexivity
    | by vm_compute | reflexivity].
Defined.

(** The premises that the instance above leaves open hold. *)
Lemma backoff_state_reached :
  ∃ st1,
    step (t0 + 400) (Response 0 (Err status_429 "429")) busy = Some st1 ∧
    well_timed [(t0 + 500, Fetch 2 trending)] st1 = true ∧
    run [(t0 + 500, Fetch 2 trending)] st1 = Some backoff_state ∧
    timely (t0 + 1400) (Timer 0) backoff_state = true.
Proof. eexists. split; [by vm_compute|]. repeat split; by vm_compute. Qed.

(** C5, instance: the call of [busy] fails with a 500. *)
Lemma terminal_failure_witness :
  workers busy !! 0%nat = Some (AwaitCall (item_of 1 recent)) ∧
  throttled status_500 = false ∧
  http_status status_500 ∧
  ∃ st' (pre : list obs),
    step (t0 + 400)
      (Response 0 (Err status_500 "Request failed with status code 500"))
      busy = Some st' ∧
    log st' =
      pre ++
      [Resolved (res (item_of 1 recent)) None;
       Replied (res (item_of 1 recent))
         (match status_500 with Some (s, _) => s | None => 500 end)
         (BFailure "Failed to fetch anime data"
            "Request failed with status code 500");
       Settled Worker (t0 + 400) (Jikan (endpoint (item_of 1 recent)))
         (Err status_500 "Request failed with status code 500")]
      ++ log busy ∧
    (pre = [] ∨
     ∃ it', head (queue busy) = Some it' ∧
            pre = [Issued Worker (t0 + 400) (Jikan (endpoint it'))]) ∧
    queue st' `suffix_of` queue busy ∧
    cache st' = cache busy.
Proof.
  assert (http_status status_500) as Hs.
  { intros s b [= <- <-]. lia. }
  split; [reflexivity|]. split; [reflexivity|]. split; [exact Hs|].
  apply (terminal_failure (t0 + 400) 0 (item_of 1 recent) status_500
           "Request failed with status code 500" busy);
    [reflexivity | reflexivity | exact Hs].
Defined.

(** * Further properties *)

(** ** Arrival order and completion order *)

Lemma run_invariant_step (P : state → Prop) :
  (∀ now e st st', guard_inv st → P st → step now e st = Some st' →
                   trans now st e st' → P st') →
  ∀ tr st st', guard_inv st → P st → run tr st = Some st' → P st'.
Proof.
  intros Hstep. induction tr as [|[now e] tr IH]; intros st st' Hg HP Hr;
    simpl in Hr.
  - by simplify_eq.
  - destruct (step now e st) as [st1|] eqn:Hs; [|done].
    eapply IH; [| |done]; eauto using step_guard, step_trans.
Qed.

Lemma resolved_handler now new l :
  Forall (handler_obs now) new → resolved (new ++ l) = resolved l.
Proof.
  induction 1 as [|o new Ho _ IH]; [done|]. simpl.
  by destruct o as [[]| [] | |].
Qed.

Lemma fifo_step now e st st' :
  guard_inv st → step now e st = Some st' →
  rev (resolved (log st')) ++ map res (pending st') =
  rev (resolved (log st)) ++ map res (pending st) ++
  match e with
  | Fetch r ep => if fresh now (cache st !! ep) then [] else [r]
  | _ => []
  end.
Proof.
  intros Hg Hs. pose proof (step_trans _ _ _ _ Hg Hs) as Ht.
  unfold pending. destruct Ht; simpl in *;
    rewrite ?app_nil_r, ?map_app, <- ?app_assoc; simpl; try done.
  - rewrite H. simpl. apply Z.ltb_lt in H0. rewrite H0.
    by rewrite app_nil_r.
  - rewrite H. by destruct w.
  - by rewrite H.
  - by rewrite H.
  - rewrite (resolved_handler now new lg) by done.
    destruct e; by rewrite ?app_nil_r.
Qed.

(** X1.  The requests that miss the cache are completed in the order in
    which they arrived, whatever the answers: the callers resolved so far,
    oldest first, followed by those still pending, are the callers of the
    misses in arrival order. *)
Theorem misses_complete_in_arrival_order tr st :
  run tr init = Some st →
  rev (resolved (log st)) ++ map res (pending st) = misses tr init.
Proof.
  assert (∀ tr st0 st,
    guard_inv st0 → run tr st0 = Some st →
    rev (resolved (log st)) ++ map res (pending st) =
    (rev (resolved (log st0)) ++ map res (pending st0)) ++ misses tr st0)
    as Hgen.
  { clear. induction tr as [|[now e] tr IH]; intros st0 st Hg Hr; simpl in *.
    - simplify_eq. by rewrite app_nil_r.
    - destruct (step now e st0) as [st1|] eqn:Hs; [|done].
      rewrite (IH st1 st) by eauto using step_guard.
      rewrite (fifo_step now e st0 st1 Hg Hs).
      by rewrite <- !app_assoc. }
  intros Hr. by rewrite (Hgen tr init st init_guard Hr).
Qed.

(** ** One reply per request *)

Lemma hsettled_outcome now h o st :
  match hsettled now h o st with
  | (st', Some h') =>
      succeeded o = true ∧ hres h' = hres h ∧
      (calls_left h' < calls_left h)%nat ∧
      log st' =
        Issued Handler now (awaited h')
        :: Settled Handler now (awaited h) o :: log st
  | (st', None) =>
      ∃ s b,
        log st' =
          Replied (hres h) s b :: Settled Handler now (awaited h) o :: log st ∧
        (s = 200 ∨ s = 500) ∧
        (s = 200 → succeeded o = true ∧ calls_left h = 1%nat) ∧
        (succeeded o = false → s = 500)
  end.
Proof.
  unfold hsettled, fail_with, issue.
  destruct h, o; simpl; repeat case_match; simplify_eq/=;
    first [ by repeat split; lia
          | eexists _, _; repeat split; eauto; done ].
Qed.

(** X2.  A callback of a watch or episodes handler, run when its call
    settles, either issues the next call of the chain (only after a
    success, for the same caller, with fewer calls left) or replies to the
    caller and ends: with 500 after any failure, with 200 only when the last
    call of the chain has succeeded. *)
Theorem handler_callback_outcome now h o st :
  match hsettled now h o st with
  | (st', Some h') =>
      succeeded o = true ∧ hres h' = hres h ∧
      (calls_left h' < calls_left h)%nat ∧
      log st' =
        Issued Handler now (awaited h')
        :: Settled Handler now (awaited h) o :: log st
  | (st', None) =>
      ∃ s b,
        log st' =
          Replied (hres h) s b :: Settled Handler now (awaited h) o :: log st ∧
        (s = 200 ∨ s = 500) ∧
        (s = 200 → succeeded o = true ∧ calls_left h = 1%nat) ∧
        (succeeded o = false → s = 500)
  end.
Proof.
  unfold hsettled, fail_with, issue.
  destruct h as [r id ep | r t ep | r id ep | r id | r t | r id],
    o as [s d | rsp m]; simpl.
  all: repeat case_match; simplify_eq/=.
  all: first [ by repeat split; lia
             | eexists _, _; repeat split; eauto; done ].
Qed.

Lemma tally_app {A} (p : A → bool) l1 l2 :
  tally p (l1 ++ l2) = (tally p l1 + tally p l2)%nat.
Proof. induction l1 as [|x l1 IH]; simpl; [done | rewrite IH; lia]. Qed.

Lemma tally_insert {A} (p : A → bool) l : ∀ i x y,
  l !! i = Some x → p y = p x → tally p (<[i := y]> l) = tally p l.
Proof.
  induction l as [|z l IH]; intros [|i] x y Hi Hp; simplify_eq/=.
  - by rewrite Hp.
  - by rewrite (IH i x y).
Qed.

Lemma tally_delete {A} (p : A → bool) l : ∀ i x,
  l !! i = Some x →
  (tally p (delete i l) + (if p x then 1 else 0) = tally p l)%nat.
Proof.
  induction l as [|z l IH]; intros [|i] x Hi; simplify_eq/=; [lia|].
  specialize (IH i x Hi). lia.
Qed.

Lemma answered_step r now e st st' :
  guard_inv st → step now e st = Some st' →
  (tally (is_reply_to r) (log st') + tally (is_from r) (pending st')
   + tally (works_for r) (handlers st') =
   tally (is_reply_to r) (log st) + tally (is_from r) (pending st)
   + tally (works_for r) (handlers st)
   + (if is_request_from r (now, e) then 1 else 0))%nat.
Proof.
  intros Hg Hs. destruct (core_event e) eqn:He.
  - pose proof (step_trans _ _ _ _ Hg Hs) as Ht. unfold pending.
    destruct Ht; simpl in *; rewrite ?tally_app; simpl;
      unfold is_from, is_request_from; simpl;
      try congruence; try lia.
  - destruct e as [| | | r0 id ep | r0 id | h o]; try done;
      unfold step in Hs; simpl in Hs.
    + simplify_eq. unfold pending, is_request_from; simpl.
      rewrite !tally_app. simpl. unfold works_for. simpl. lia.
    + simplify_eq. unfold pending, is_request_from; simpl.
      rewrite !tally_app. simpl. unfold works_for. simpl. lia.
    + destruct (handlers st !! h) as [hst|] eqn:Hh; [|done]. simplify_eq.
      pose proof (hsettled_outcome now hst o (set_clock now st)) as Ho.
      destruct (hsettled_shape now hst o (set_clock now st))
        as (new & k & Heq & _).
      unfold hresume. rewrite Heq in Ho |- *. simpl in *.
      unfold is_request_from; simpl.
      destruct k as [h'|]; unfold pending; simpl.
      * destruct Ho as (_ & Hres & _ & ->). simpl.
        rewrite (tally_insert _ _ _ hst)
          by (by unfold works_for; rewrite ?Hres).
        lia.
      * destruct Ho as (s & b & -> & _). simpl.
        pose proof (tally_delete (works_for r) _ _ _ Hh) as Hd.
        unfold works_for in *. lia.
Qed.

(** X3.  Every request is answered exactly once, to its own caller, or is
    still in progress.  For every caller [r]: the replies sent to [r], the
    pending cache misses of [r] and the suspended handlers that work for
    [r] add up to the requests of [r] that have arrived.  So a caller that
    has made no request gets no reply; a caller that has made one request
    gets at most one reply, and has none exactly while its request is still
    in progress. *)
Theorem every_request_answered_once tr st r :
  run tr init = Some st →
  (tally (is_reply_to r) (log st) + tally (is_from r) (pending st)
   + tally (works_for r) (handlers st) = tally (is_request_from r) tr)%nat ∧
  (tally (is_request_from r) tr = 0%nat →
   tally (is_reply_to r) (log st) = 0%nat) ∧
  (tally (is_request_from r) tr = 1%nat →
   (tally (is_reply_to r) (log st) ≤ 1)%nat ∧
   (tally (is_reply_to r) (log st) = 0%nat ↔
    (tally (is_from r) (pending st)
     + tally (works_for r) (handlers st) = 1)%nat)).
Proof.
  assert (∀ tr st0 st,
    guard_inv st0 → run tr st0 = Some st →
    (tally (is_reply_to r) (log st) + tally (is_from r) (pending st)
     + tally (works_for r) (handlers st) =
     tally (is_reply_to r) (log st0) + tally (is_from r) (pending st0)
     + tally (works_for r) (handlers st0)
     + tally (is_request_from r) tr)%nat) as Hgen.
  { clear. induction tr as [|[now e] tr IH]; intros st0 st Hg Hr.
    - simpl in *. simplify_eq. lia.
    - simpl in Hr. destruct (step now e st0) as [st1|] eqn:Hs; [|done].
      rewrite (IH st1 st) by eauto using step_guard.
      rewrite (answered_step r now e st0 st1 Hg Hs).
      cbn [tally]. lia. }
  intros Hr. pose proof (Hgen tr init st init_guard Hr) as H.
  simpl in H. repeat split; lia.
Qed.

(** ** The cache *)

Lemma while_loop_cache now st : cache (while_loop now st).1 = cache st.
Proof.
  rewrite while_loop_eq. destruct (queue st); [done|]. by case_match.
Qed.

Lemma processQueue_cache now st : cache (processQueue now st) = cache st.
Proof.
  unfold processQueue. destruct (_ || _); [done|].
  pose proof (while_loop_cache now (set_isProcessingQueue true st)) as Hw.
  destruct (while_loop now (set_isProcessingQueue true st)) as [st' k].
  exact Hw.
Qed.

Lemma step_cache now e st st' :
  step now e st = Some st' →
  cache st' =
    match e with
    | Response w (Ok _ d) =>
        match workers st !! w with
        | Some (AwaitCall it) => stored now it d (cache st)
        | _ => cache st
        end
    | _ => cache st
    end.
Proof.
  intros Hs. destruct e as [r ep | w | w o | r id ep | r id | h o];
    unfold step in Hs; simpl in Hs.
  - simplify_eq. unfold proxyRequest. simpl.
    destruct (cache st !! ep); [destruct (fresh _ _)|]; try done;
      by rewrite processQueue_cache.
  - destruct (workers st !! w) as [[]|]; simplify_eq.
    + unfold resume, shift_and_call. by destruct (queue _).
    + unfold resume.
      pose proof (while_loop_cache now (set_clock now st)) as Hw.
      by destruct (while_loop now (set_clock now st)).
  - destruct (workers st !! w) as [[| it |]|]; simplify_eq.
    unfold resume, on_settled. destruct o as [s d | r m].
    + match goal with |- context [while_loop now ?x] =>
        pose proof (while_loop_cache now x) as Hw;
        destruct (while_loop now x) end.
      exact Hw.
    + destruct (throttled r); [done|].
      match goal with |- context [while_loop now ?x] =>
        pose proof (while_loop_cache now x) as Hw;
        destruct (while_loop now x) end.
      exact Hw.
  - by simplify_eq.
  - by simplify_eq.
  - destruct (handlers st !! h) as [hst|]; simplify_eq.
    unfold hresume.
    destruct (hsettled_shape now hst o (set_clock now st)) as (new & k & -> & _).
    done.
Qed.

(** X4.  A callback changes the entry of a key only when it is the one
    that runs after a call of the worker for that key has succeeded, and
    then the entry holds the payload received and the current time.  No
    other callback, and no failed call, writes or removes an entry. *)
Theorem cache_written_only_on_success now e st st' K :
  step now e st = Some st' →
  cache st' !! K ≠ cache st !! K →
  ∃ w it s d, e = Response w (Ok s d) ∧
              workers st !! w = Some (AwaitCall it) ∧
              endpoint it = K ∧
              cache st' !! K = Some {| data := d; timestamp := now |}.
Proof.
  intros Hs Hne. rewrite (step_cache _ _ _ _ Hs) in Hne |- *.
  destruct e as [| |w [s d|]| | |]; try done.
  destruct (workers st !! w) as [[| it |]|] eqn:Hw; try done.
  unfold stored in *. destruct (decide (endpoint it = K)) as [<-|HK].
  - exists w, it, s, d. by rewrite lookup_insert_eq.
  - by rewrite lookup_insert_ne in Hne.
Qed.

Lemma run_cache_dom tr : ∀ st st',
  run tr st = Some st' → dom (cache st) ⊆ dom (cache st').
Proof.
  induction tr as [|[now e] tr IH]; intros st st' Hr; simpl in Hr.
  - by simplify_eq.
  - destruct (step now e st) as [st1|] eqn:Hs; [|done].
    etrans; [|by apply IH]. rewrite (step_cache _ _ _ _ Hs).
    destruct e as [| |w [s d|]| | |]; try done.
    destruct (workers st !! w) as [[| it |]|]; try done.
    unfold stored. apply dom_insert_subseteq.
Qed.

(** X5.  The cache never evicts: along every run, from every state, a key
    that has an entry keeps one.  A stale entry stays until a later success
    for its key overwrites it. *)
Theorem cache_never_evicts tr st st' K :
  run tr st = Some st' →
  is_Some (cache st !! K) → is_Some (cache st' !! K).
Proof.
  intros Hr HK. apply elem_of_dom. apply (run_cache_dom tr st st' Hr).
  by apply elem_of_dom.
Qed.

(** X6.  In every state the program reaches, the cache holds for each key
    exactly what the newest successful call of the worker for that key
    received, stamped with its completion time, and nothing for a key that
    has had no successful call. *)
Theorem cache_holds_newest_success tr st K :
  run tr init = Some st →
  cache st !! K = last_success K (log st).
Proof.
  intros Hr.
  apply (run_invariant (λ st, cache st !! K = last_success K (log st)))
    with (tr := tr) (st := init); auto using init_guard.
  clear. intros now e st st' _ HP Ht.
  destruct Ht as [| | | | | | | c l it hs ck lg s d
                 | c l it it' q hs ck lg s d | | | | |];
    simpl in *; try done.
  - unfold stored. destruct (String.eqb_spec (endpoint it) K) as [->|Hne].
    + by rewrite lookup_insert_eq.
    + by rewrite lookup_insert_ne.
  - unfold stored. destruct (String.eqb_spec (endpoint it) K) as [->|Hne].
    + by rewrite lookup_insert_eq.
    + by rewrite lookup_insert_ne.
  - by rewrite (last_success_handler K now).
Qed.

(** ** The timestamp of the rate governor *)

Lemma newest_success_time_handler now new l :
  Forall (handler_obs now) new →
  newest_success_time (new ++ l) = newest_success_time l.
Proof.
  induction 1 as [|o new Ho _ IH]; [done|]. simpl.
  by destruct o as [[]| [] | |].
Qed.

(** X7.  [lastRequestTime] is 0 until a call of the worker succeeds, and
    from then on the completion time of the newest successful call of the
    worker. *)
Theorem lastRequestTime_is_newest_success tr st :
  run tr init = Some st →
  lastRequestTime st = default 0 (newest_success_time (log st)).
Proof.
  intros Hr.
  apply (run_invariant
           (λ st, lastRequestTime st =
                  default 0 (newest_success_time (log st))))
    with (tr := tr) (st := init); auto using init_guard.
  clear. intros now e st st' _ HP Ht.
  destruct Ht; simpl in *; try done.
  by rewrite (newest_success_time_handler now).
Qed.

(** ** Timers and wake-ups *)

(** X8.  In every state the program reaches, a non-empty queue has a
    running worker: the flag is set and exactly one activation of the loop
    is suspended on a timer or on its call.  And an activation that waits
    for the spacing timer or for a back-off finds an item to take when it
    wakes up: [queue.shift()] at line 80 never gives [undefined]. *)
Theorem queued_request_has_a_worker tr st :
  run tr init = Some st →
  (queue st ≠ [] →
   isProcessingQueue st = true ∧ ∃ w, workers st = [w]) ∧
  (∀ w due, workers st !! w = Some (AwaitGate due) ∨
            workers st !! w = Some (AwaitBackoff due) →
            ∃ it, head (queue st) = Some it).
Proof.
  intros Hr. pose proof (reachable_guard _ _ Hr) as Hg.
  unfold guard_inv in Hg. split.
  - intros Hq. destruct (workers st) as [|[] []]; try done;
      destruct_and?; try done; eauto.
  - intros w due Hw.
    destruct (workers st) as [|w0 [|]] eqn:Hws; [by destruct Hw | |by destruct w0].
    destruct w as [|w]; [|by destruct Hw as [Hw|Hw]; destruct w].
    simpl in Hw. destruct (queue st) as [|it q]; [|by eauto].
    destruct Hw as [Hw|Hw]; simplify_eq; by destruct Hg.
Qed.

(** X9.  The spacing timer (line 77) is set for the time
    [lastRequestTime + RATE_LIMIT_DELAY]; when the clock does not go back
    its delay is more than 0 and at most [RATE_LIMIT_DELAY]. *)
Theorem spacing_timer_delay tr st now e st' due :
  well_timed tr init = true →
  run tr init = Some st →
  timely now e st = true →
  step now e st = Some st' →
  workers st' = [AwaitGate due] →
  (∀ d, workers st ≠ [AwaitGate d]) →
  due = lastRequestTime st' + RATE_LIMIT_DELAY ∧
  now < due ≤ now + RATE_LIMIT_DELAY.
Proof.
  intros Hwt Hr Ht Hs Hw Hnew.
  pose proof (reachable_guard _ _ Hr) as Hg.
  destruct (reachable_pace _ _ Hwt Hr) as (_ & Hlc & _).
  pose proof (timely_clock _ _ _ Ht) as Hck.
  pose proof (step_trans _ _ _ _ Hg Hs) as Htr.
  destruct Htr; simpl in *; simplify_eq; unfold gate_due, RATE_LIMIT_DELAY in *;
    try lia; try (by exfalso; eapply Hnew).
Qed.

(** ** The worker can always finish *)

Lemma drain_cons now e st st1 tr st' :
  trans now st e st1 → core_event e = true → timely now e st = true →
  run tr st1 = Some st' ∧ well_timed tr st1 = true ∧
  forallb (λ x, worker_event x.2) tr = true ∧ (length tr ≤ to_go st1)%nat →
  worker_event e = true → (S (to_go st1) ≤ to_go st)%nat →
  run ((now, e) :: tr) st = Some st' ∧
  well_timed ((now, e) :: tr) st = true ∧
  forallb (λ x, worker_event x.2) ((now, e) :: tr) = true ∧
  (length ((now, e) :: tr) ≤ to_go st)%nat.
Proof.
  intros Ht He Htm (Hr & Hwt & Hf & Hl) Hwe Hgo.
  pose proof (trans_step _ _ _ _ Ht He) as Hs. simpl.
  rewrite Hs, Htm, Hr, Hwt, Hwe, Hf. simpl.
  split; [done|]. split; [done|]. split; [done|]. lia.
Qed.

Lemma timely_at_clock ck e st :
  ck = clock st → is_timer e = false → timely ck e st = true.
Proof.
  intros -> He. unfold timely. rewrite Z.leb_refl. by destruct e.
Qed.

Ltac drain_tac :=
  eapply drain_cons; eauto;
  first [ by apply timely_at_clock
        | by (unfold timely; simpl; apply andb_true_intro;
              split; apply Z.leb_le; lia)
        | by (unfold to_go; simpl; lia)
        | by (split; [reflexivity|]; unfold to_go; simpl;
              split; [done|]; split; [done|]; lia) ].

Lemma drain_aux n : ∀ st,
  guard_inv st → (to_go st ≤ n)%nat →
  ∃ tr st',
    (run tr st = Some st' ∧ well_timed tr st = true ∧
     forallb (λ x, worker_event x.2) tr = true ∧
     (length tr ≤ to_go st)%nat) ∧
    workers st' = [] ∧ queue st' = [] ∧ isProcessingQueue st' = false.
Proof.
  induction n as [|n IH]; intros st Hg Hn.
  - destruct st as [c l q f ws hs ck lg]. unfold guard_inv, to_go in *.
    simpl in *. destruct ws as [|[] []]; try done; try lia.
    + destruct Hg as [-> ->]. by exists [], (State c l [] false [] hs ck lg).
    + destruct Hg as [_ Hq]. destruct q; [done | simpl in Hn; lia].
  - destruct st as [c l q f ws hs ck lg]. pose proof Hg as Hg0.
    unfold guard_inv in Hg. simpl in Hg. destruct ws as [|w [|]]; [| |by destruct w].
    + destruct Hg as [-> ->]. by exists [], (State c l [] false [] hs ck lg).
    + destruct w as [due | it | due].
      * (* the spacing timer fires *)
        destruct Hg as [-> Hq]. destruct q as [|it q]; [done|].
        pose proof (t_gate_wake (Z.max ck due) c l it q due hs ck lg) as Ht.
        destruct (IH _ (trans_guard _ _ _ _ Hg0 Ht))
          as (tr & st' & Hrun & Hend).
        { unfold to_go in *. simpl in *. lia. }
        exists ((Z.max ck due, Timer 0) :: tr), st'. split; [|done].
        drain_tac.
      * (* the call succeeds *)
        simpl in Hg. subst f. destruct q as [|it' q].
        -- pose proof (t_ok_exit ck c l it hs ck lg 200 JNull) as Ht.
           eexists [(ck, Response 0 (Ok 200 JNull))], _.
           split; [drain_tac | done].
        -- pose proof (t_ok_gate ck c l it it' q hs ck lg 200 JNull) as Ht.
           destruct (IH _ (trans_guard _ _ _ _ Hg0 Ht))
             as (tr & st' & Hrun & Hend).
           { unfold to_go in *. simpl in *. lia. }
           exists ((ck, Response 0 (Ok 200 JNull)) :: tr), st'.
           split; [|done]. drain_tac.
      * (* the back-off timer fires *)
        destruct Hg as [-> Hq]. destruct q as [|it q]; [done|].
        destruct (Z.lt_ge_cases (Z.max ck due - l) RATE_LIMIT_DELAY)
          as [Hgate|Hgate].
        -- pose proof (t_backoff_gate (Z.max ck due) c l it q due hs ck lg
                         Hgate) as Ht.
           destruct (IH _ (trans_guard _ _ _ _ Hg0 Ht))
             as (tr & st' & Hrun & Hend).
           { unfold to_go in *. simpl in *. lia. }
           exists ((Z.max ck due, Timer 0) :: tr), st'. split; [|done].
           drain_tac.
        -- pose proof (t_backoff_call (Z.max ck due) c l it q due hs ck lg
                         Hgate) as Ht.
           destruct (IH _ (trans_guard _ _ _ _ Hg0 Ht))
             as (tr & st' & Hrun & Hend).
           { unfold to_go in *. simpl in *. lia. }
           exists ((Z.max ck due, Timer 0) :: tr), st'. split; [|done].
           drain_tac.
Qed.

(** X10.  The worker can always finish.  From every state the program
    reaches there is a continuation made of callbacks of the worker only
    (timers firing when due, calls succeeding), at most two per pending
    request and one more, after which no request is pending, the queue is
    empty and the flag is cleared. *)
Theorem worker_can_always_finish tr0 st :
  run tr0 init = Some st →
  ∃ tr st',
    run tr st = Some st' ∧ well_timed tr st = true ∧
    forallb (λ x, worker_event x.2) tr = true ∧
    (length tr ≤ 2 * length (pending st) + 1)%nat ∧
    pending st' = [] ∧ isProcessingQueue st' = false.
Proof.
  intros Hr. pose proof (reachable_guard _ _ Hr) as Hg.
  destruct (drain_aux (to_go st) st Hg (le_n _))
    as (tr & st' & (Hrun & Hwt & Hf & Hl) & Hw & Hq & Hflag).
  exists tr, st'. repeat split; try done.
  - etrans; [exact Hl|]. unfold to_go, pending.
    destruct (workers st) as [|[] []]; simpl; rewrite ?length_app; simpl; lia.
  - unfold pending. by rewrite Hw, Hq.
Qed.

(** ** Sustained throttling *)

Lemma refusal_round c l it q hs ck lg r m x :
  throttled r = true → RATE_LIMIT_DELAY ≤ x.2 - l →
  run (refusal r m x) (State c l q true [AwaitCall it] hs ck lg) =
    Some (State c l q true [AwaitCall it] hs x.2
            (refusal_log it r m x ++ lg)).
Proof.
  intros Hth Hgate. unfold refusal.
  run_step t_throttled.
  run_step t_backoff_call.
  reflexivity.
Qed.

Lemma refusal_rounds r m rounds : ∀ c l it q hs ck lg,
  throttled r = true →
  Forall (λ x, RATE_LIMIT_DELAY ≤ x.2 - l) rounds →
  ∃ ck',
    run (flat_map (refusal r m) rounds)
      (State c l q true [AwaitCall it] hs ck lg) =
    Some (State c l q true [AwaitCall it] hs ck'
            (flat_map (refusal_log it r m) (rev rounds) ++ lg)).
Proof.
  induction rounds as [|x rounds IH]; intros c l it q hs ck lg Hth Hr.
  - by exists ck.
  - apply Forall_cons in Hr as [Hx Hr].
    change (flat_map (refusal r m) (x :: rounds))
      with (refusal r m x ++ flat_map (refusal r m) rounds).
    rewrite run_app, (refusal_round c l it q hs ck lg r m x) by done.
    destruct (IH c l it q hs x.2 (refusal_log it r m x ++ lg) Hth Hr)
      as [ck' Hrun].
    exists ck'. etrans; [exact Hrun|]. do 2 f_equal. simpl.
    rewrite flat_map_app. simpl. by rewrite <- app_assoc.
Qed.

(** X11.  A throttled item is retried without limit and holds the queue.
    While upstream answers 429, round after round, the worker calls for the
    same item again after each back-off; the queue behind it, the cache and
    [lastRequestTime] stay as they are and no caller gets a reply: the log
    gains only the refused calls. *)
Theorem throttling_holds_the_queue tr st it r m rounds :
  run tr init = Some st →
  workers st = [AwaitCall it] →
  throttled r = true →
  Forall (λ x, RATE_LIMIT_DELAY ≤ x.2 - lastRequestTime st) rounds →
  ∃ st',
    run (flat_map (refusal r m) rounds) st = Some st' ∧
    workers st' = [AwaitCall it] ∧ queue st' = queue st ∧
    cache st' = cache st ∧ lastRequestTime st' = lastRequestTime st ∧
    log st' = flat_map (refusal_log it r m) (rev rounds) ++ log st.
Proof.
  intros Hr Hw Hth Hrounds. pose proof (reachable_guard _ _ Hr) as Hg.
  destruct st as [c l q f ws hs ck lg]. simpl in *. subst ws.
  unfold guard_inv in Hg. simpl in Hg. subst f.
  destruct (refusal_rounds r m rounds c l it q hs ck lg Hth Hrounds)
    as [ck' Hrun].
  eexists. split; [exact Hrun|]. by repeat split.
Qed.

(** ** Successes are spaced *)

Lemma successes_spaced_quiet new l :
  no_success new → successes_spaced l → successes_spaced (new ++ l).
Proof.
  intros Hnew Hl. induction new as [|o new IH]; [done|]. simpl. split.
  - destruct o as [| [] t u [s d|] | |]; try done.
    exfalso. eapply Hnew. by left.
  - apply IH. intros t u s d Hin. eapply Hnew. by right.
Qed.

Lemma in_no_success new l t u s d :
  no_success new →
  In (Settled Worker t u (Ok s d)) (new ++ l) →
  In (Settled Worker t u (Ok s d)) l.
Proof.
  intros Hnew [Hin|Hin]%in_app_or; [by apply Hnew in Hin | done].
Qed.

Lemma success_step now e st st' :
  guard_inv st → pace_inv st ∧ success_inv st → timely now e st = true →
  trans now st e st' → pace_inv st' ∧ success_inv st'.
Proof.
  intros Hg [Hp Hs] Ht Htr. split; [by eapply pace_step|].
  destruct Hp as (_ & Hlc & Hok & Hw). destruct Hs as [Hsp Hcall].
  pose proof (timely_clock _ _ _ Ht) as Hck.
  pose proof (timely_timer now st) as Hdue.
  unfold success_inv.
  destruct Htr; simpl in *.
  14: {
    pose proof (no_success_handler _ _ H0) as Hns. split.
    - by apply successes_spaced_quiet.
    - intros it Hws t1 u s d Hin%(in_no_success new); [|done].
      specialize (Hcall it Hws _ _ _ _ Hin). lia. }
  all: try match goal with
           | H : _ ∧ _ |- _ => destruct H as [Hw1 Hw2]
           end;
    try (specialize (Hdue due Ht (or_introl eq_refl)));
    try (specialize (Hdue due Ht (or_intror eq_refl))).
  all: split; [repeat split; try done|].
  all: try (intros ? ? ? ? Hin; simpl in Hin;
            repeat (destruct Hin as [Hin|Hin]; [done|]);
            specialize (Hcall _ eq_refl _ _ _ _ Hin); zlia).
  all: intros it0 Hws; simplify_eq; try done.
  all: intros t1 u s0 d0 Hin; simpl in Hin;
    repeat (destruct Hin as [Hin|Hin]; [simplify_eq|]);
    try (specialize (Hok _ _ _ _ Hin); zlia);
    try (specialize (Hcall _ eq_refl _ _ _ _ Hin); zlia).
Qed.

Lemma init_success : success_inv init.
Proof. split; [done|]. by intros it Hw. Qed.

Lemma successes_spaced_app l2 l1 :
  successes_spaced (l2 ++ l1) → successes_spaced l1.
Proof. induction l2 as [|o l2 IH]; [done|]. simpl. intros [_ H]. auto. Qed.

(** X12.  When the clock does not go back and timers do not fire early,
    two successful calls of the worker, for any keys, complete at least
    [RATE_LIMIT_DELAY] apart. *)
Theorem successes_complete_spaced tr st (l2 l1 : list obs)
  t2 u2 s2 d2 t1 u1 s1 d1 :
  well_timed tr init = true →
  run tr init = Some st →
  log st = l2 ++ Settled Worker t2 u2 (Ok s2 d2) :: l1 →
  In (Settled Worker t1 u1 (Ok s1 d1)) l1 →
  t1 + RATE_LIMIT_DELAY ≤ t2.
Proof.
  intros Hwt Hr Hlog Hin.
  assert (pace_inv st ∧ success_inv st) as [_ [Hsp _]].
  { apply (timed_invariant (λ st, pace_inv st ∧ success_inv st) success_step
             tr init st init_guard); auto using init_pace, init_success. }
  rewrite Hlog in Hsp. apply successes_spaced_app in Hsp as [H _].
  by eapply H.
Qed.

(** ** The calls of the handlers *)

Lemma owed_all_app hs1 hs2 :
  owed_all (hs1 ++ hs2) = (owed_all hs1 + owed_all hs2)%nat.
Proof. induction hs1 as [|h hs1 IH]; simpl; [done | lia]. Qed.

Lemma owed_all_insert hs : ∀ i h h',
  hs !! i = Some h →
  (owed_all (<[i := h']> hs) + owed h = owed_all hs + owed h')%nat.
Proof.
  induction hs as [|h0 hs IH]; intros [|i] h h' Hi; simplify_eq/=; [lia|].
  specialize (IH i h h' Hi). lia.
Qed.

Lemma owed_all_delete hs : ∀ i h,
  hs !! i = Some h → (owed_all (delete i hs) + owed h = owed_all hs)%nat.
Proof.
  induction hs as [|h0 hs IH]; intros [|i] h Hi; simplify_eq/=; [lia|].
  specialize (IH i h Hi). lia.
Qed.

Lemma hrequests_cons now e tr :
  hrequests ((now, e) :: tr) =
    ((if is_hrequest e then 1 else 0) + hrequests tr)%nat.
Proof.
  unfold hrequests. destruct (is_hrequest e) eqn:E.
  - rewrite filter_cons_True; [done | by apply Is_true_true].
  - rewrite filter_cons_False; [done | by apply Is_true_false].
Qed.

Lemma handler_calls_step now e st st' :
  guard_inv st → step now e st = Some st' →
  (handler_calls (log st) + (if is_hrequest e then 1 else 0)
   ≤ handler_calls (log st'))%nat ∧
  (handler_calls (log st') + owed_all (handlers st')
   ≤ handler_calls (log st) + owed_all (handlers st)
     + (if is_hrequest e then 3 else 0))%nat.
Proof.
  intros Hg Hs. destruct (core_event e) eqn:He.
  - pose proof (step_trans _ _ _ _ Hg Hs) as Ht.
    destruct Ht; simpl in *; try congruence; split; lia.
  - destruct e as [| | | r id ep | r id | h o]; try done;
      unfold step in Hs; simpl in Hs.
    + simplify_eq. simpl. rewrite owed_all_app. simpl. split; lia.
    + simplify_eq. simpl. rewrite owed_all_app. simpl. split; lia.
    + destruct (handlers st !! h) as [hst|] eqn:Hh; [|done]. simplify_eq.
      pose proof (hsettled_outcome now hst o (set_clock now st)) as Ho.
      destruct (hsettled_shape now hst o (set_clock now st))
        as (new & k & Heq & _).
      unfold hresume. rewrite Heq in Ho |- *. simpl in *.
      destruct k as [h'|]; simpl.
      * destruct Ho as (_ & _ & Hlt & ->). simpl.
        pose proof (owed_all_insert _ _ _ h' Hh) as Hi.
        assert (1 ≤ calls_left h')%nat by (destruct h'; simpl; lia).
        unfold owed in *. split; lia.
      * destruct Ho as (s & b & -> & _). simpl.
        pose proof (owed_all_delete _ _ _ Hh) as Hd.
        split; lia.
Qed.

(** X13.  A watch or episodes request makes its first upstream call as
    soon as it arrives and at most three upstream calls in all. *)
Theorem handler_request_makes_at_most_three_calls tr st :
  run tr init = Some st →
  (hrequests tr ≤ handler_calls (log st) ≤ 3 * hrequests tr)%nat.
Proof.
  assert (∀ tr st0 st,
    guard_inv st0 → run tr st0 = Some st →
    (handler_calls (log st0) + hrequests tr ≤ handler_calls (log st))%nat ∧
    (handler_calls (log st) + owed_all (handlers st)
     ≤ handler_calls (log st0) + owed_all (handlers st0)
       + 3 * hrequests tr)%nat) as Hgen.
  { clear. induction tr as [|[now e] tr IH]; intros st0 st Hg Hr; simpl in *.
    - simplify_eq. unfold hrequests. simpl. lia.
    - destruct (step now e st0) as [st1|] eqn:Hs; [|done].
      destruct (IH st1 st) as [IH1 IH2]; eauto using step_guard.
      destruct (handler_calls_step now e st0 st1 Hg Hs) as [H1 H2].
      rewrite hrequests_cons. destruct (is_hrequest e); split; lia. }
  intros Hr. destruct (Hgen tr init st init_guard Hr) as [H1 H2].
  simpl in *. lia.
Qed.

(** ** The episode that is looked up *)






(** ** Empty answers *)

(** X15.  The title search has no result: the body has no [results], or
    [results] is [null] or an empty array.  The handler replies 500 and
    issues no further call.  When [results] is an array whose first element
    is an object, the handler goes on with the [id] of that first element
    alone. *)
Theorem search_result_decides now h s d st :
  calls_left h = 2%nat →
  (prop "results" (Some d) = Some None ∨
   prop "results" (Some d) = Some (Some JNull) ∨
   prop "results" (Some d) = Some (Some (JArr [])) →
   ∃ b, hsettled now h (Ok s d) st =
          (emit (Replied (hres h) 500 b)
             (emit (Settled Handler now (awaited h) (Ok s d)) st), None)) ∧
  (∀ fs rest,
     prop "results" (Some d) = Some (Some (JArr (JObj fs :: rest))) →
     ∃ h', hsettled now h (Ok s d) st =
             (emit (Issued Handler now (awaited h'))
                (emit (Settled Handler now (awaited h) (Ok s d)) st),
              Some h') ∧
           (awaited h' = GogoInfo (assoc "id" fs) ∨
            ∃ ep, awaited h' = GogoWatch (assoc "id" fs) ep)).
Proof.
  intros Hh. split.
  - intros Hres. destruct h; try done;
      unfold hsettled, fail_with, gogo_id; lazy beta iota;
      destruct Hres as [->|[->| ->]]; simpl; eauto.
  - intros fs rest Hres. destruct h as [| r t ep | | | r t |]; try done;
      unfold hsettled, issue, gogo_id; lazy beta iota;
      rewrite Hres; simpl.
    + exists (WatchSource r (assoc "id" fs) ep). simpl. eauto.
    + exists (EpisodesInfo r (assoc "id" fs)). simpl. eauto.
Qed.

(** X16.  The source lookup has no sources: the body has no [sources], or
    [sources] is [null] or an empty array.  The watch handler replies 500.
    When [sources] is a non-empty array it replies 200 with that array and
    with the [headers] of the body. *)
Theorem sources_decide now r id ep s d st :
  (prop "sources" (Some d) = Some None ∨
   prop "sources" (Some d) = Some (Some JNull) ∨
   prop "sources" (Some d) = Some (Some (JArr [])) →
   hsettled now (WatchSource r id ep) (Ok s d) st =
     (emit (Replied r 500 (BHandlerFailure "Failed to fetch video"))
        (emit (Settled Handler now (GogoWatch id ep) (Ok s d)) st), None)) ∧
  (∀ x xs,
     prop "sources" (Some d) = Some (Some (JArr (x :: xs))) →
     ∃ headers,
       prop "headers" (Some d) = Some headers ∧
       hsettled now (WatchSource r id ep) (Ok s d) st =
         (emit (Replied r 200 (BSources (Some (JArr (x :: xs))) headers))
            (emit (Settled Handler now (GogoWatch id ep) (Ok s d)) st),
          None)).
Proof.
  split.
  - intros Hres. unfold hsettled, fail_with, watch_body. lazy beta iota.
    destruct Hres as [->|[->| ->]]; simpl; by destruct d.
  - intros x xs Hres. unfold hsettled, watch_body. lazy beta iota.
    rewrite Hres. simpl. destruct d; simplify_eq/=. eauto.
Qed.

(** ** The keys of the routes *)

Lemma first_escaped_escape c rest :
  first_escaped (escape c +:+ rest) = Some (c, rest).
Proof. destruct c as [[] [] [] [] [] [] [] []]; reflexivity. Qed.

Lemma encodeURIComponent_inj s1 : ∀ s2,
  encodeURIComponent s1 = encodeURIComponent s2 → s1 = s2.
Proof.
  induction s1 as [|c1 s1 IH]; intros [|c2 s2] H; simpl in H.
  - done.
  - apply (f_equal first_escaped) in H.
    by rewrite first_escaped_escape in H.
  - apply (f_equal first_escaped) in H.
    by rewrite first_escaped_escape in H.
  - apply (f_equal first_escaped) in H.
    rewrite !first_escaped_escape in H. simplify_eq. f_equal. by apply IH.
Qed.

Lemma append_length s1 s2 :
  String.length (s1 +:+ s2) = (String.length s1 + String.length s2)%nat.
Proof. induction s1 as [|c s1 IH]; simpl; [done | by rewrite IH]. Qed.

Lemma append_inv_tail s1 : ∀ s2 t, s1 +:+ t = s2 +:+ t → s1 = s2.
Proof.
  induction s1 as [|c1 s1 IH]; intros [|c2 s2] t H; simpl in H.
  - done.
  - apply (f_equal String.length) in H.
    rewrite !append_length in H. simpl in H. lia.
  - apply (f_equal String.length) in H.
    rewrite !append_length in H. simpl in H. lia.
  - simplify_eq. f_equal. by eapply IH.
Qed.

(** X17.  The cache key tells the request: two requests of the four proxy
    routes get the same key only when they are the same route with the same
    parameter.  In particular two different search texts never share a
    cache entry. *)
Theorem route_endpoint_injective rt1 rt2 :
  route_endpoint rt1 = route_endpoint rt2 → rt1 = rt2.
Proof.
  destruct rt1 as [| | q1 | id1], rt2 as [| | q2 | id2]; simpl;
    intros H; try done; try discriminate H.
  - injection H as H. change ("" +:+ ?s) with s in H.
    apply append_inv_tail in H. f_equal. by apply encodeURIComponent_inj.
  - injection H as H. change ("" +:+ ?s) with s in H.
    apply append_inv_tail in H. by f_equal.
Qed.

Lemma list_ascii_of_string_append s1 s2 :
  list_ascii_of_string (s1 +:+ s2) =
  list_ascii_of_string s1 ++ list_ascii_of_string s2.
Proof. induction s1 as [|c s1 IH]; simpl; [done | by rewrite IH]. Qed.

Lemma hex_digit_unreserved n : is_unreserved (hex_digit n) = true.
Proof. do 17 (destruct n as [|n]; [reflexivity|]). reflexivity. Qed.

Lemma escape_alphabet a c :
  In c (list_ascii_of_string (escape a)) →
  is_unreserved c = true ∨ c = "%"%char.
Proof.
  unfold escape. destruct (is_unreserved a) eqn:Ha; simpl.
  - intros [<-|[]]. by left.
  - intros [<-|[<-|[<-|[]]]]; auto using hex_digit_unreserved.
Qed.

(** X18.  An encoded search text is made of letters, digits, the marks
    [- _ . ! ~ * ' ( )] and [%] only.  None of [& = ? # / +] or a space
    occurs in it, so the text cannot add a parameter to the upstream URL or
    change its path. *)
Theorem encoded_query_alphabet q c :
  In c (list_ascii_of_string (encodeURIComponent q)) →
  (is_unreserved c = true ∨ c = "%"%char) ∧
  ¬ In c (list_ascii_of_string "&=?#/+ ").
Proof.
  intros Hin.
  assert (is_unreserved c = true ∨ c = "%"%char) as Hc.
  { induction q as [|a q IH]; simpl in Hin; [done|].
    rewrite list_ascii_of_string_append in Hin.
    apply in_app_or in Hin as [Hin|Hin]; eauto using escape_alphabet. }
  split; [done|]. simpl.
  intros [<-|[<-|[<-|[<-|[<-|[<-|[<-|[]]]]]]]]; by destruct Hc.
Qed.

(** ** Load *)

Lemma flood_queue K now c l hs : ∀ n k it ck lg q,
  c !! K = None →
  run (map (λ r, (now, Fetch r K)) (seq k n))
    (State c l q true [AwaitCall it] hs ck lg) =
  Some (State c l (q ++ map (λ r, item_of r K) (seq k n)) true
          [AwaitCall it] hs (if n is O then ck else now) lg).
Proof.
  induction n as [|n IH]; intros k it ck lg q Hc; cbn [seq map].
  - simpl. by rewrite app_nil_r.
  - run_step t_miss_busy; [|by rewrite Hc].
    rewrite IH by done. rewrite <- app_assoc. simpl. by destruct n.
Qed.

(** X19.  The queue has no bound and no request is turned away: [n + 1]
    requests for an uncached key arriving together leave one call in flight
    and [n] items in the queue, in the order of arrival, and no reply has
    been sent. *)
Theorem queue_is_unbounded K now n :
  RATE_LIMIT_DELAY ≤ now →
  ∃ st,
    run (flood now K (S n)) init = Some st ∧
    workers st = [AwaitCall (item_of 0 K)] ∧
    queue st = map (λ r, item_of r K) (seq 1 n) ∧
    log st = [Issued Worker now (Jikan K)].
Proof.
  intros Hnow. unfold flood. cbn [seq map]. eexists. split.
  - run_step t_miss_call; [|by simpl; lia].
    by rewrite flood_queue.
  - by repeat split.
Qed.

(** ** What a caller is told *)

Lemma status_or_500_not_429 r : throttled r = false → status_or_500 r ≠ 429.
Proof.
  unfold throttled, status_or_500. destruct r as [[s b]|]; [|done].
  intros Hs%Z.eqb_neq. by destruct (s =? 0).
Qed.

Lemma reports_mono (new l : list obs) s b :
  reports l s b → reports (new ++ l) s b.
Proof.
  intros [Hs Hb]. split; [done|]. intros e m Heq.
  destruct (Hb e m Heq) as (t & u & rsp & Hin & Hth & Hst).
  exists t, u, rsp. split; [|done]. apply in_or_app. by right.
Qed.

Lemma told_ext (new l : list obs) :
  told l →
  (∀ r s b, In (Replied r s b) new → reports (new ++ l) s b) →
  told (new ++ l).
Proof.
  intros Hl Hnew r s b [Hin|Hin]%in_app_or; [by eauto|].
  apply reports_mono. by eapply Hl.
Qed.

Lemma reports_success l s b :
  s ≠ 429 → (∀ e m, b ≠ BFailure e m) → reports l s b.
Proof. intros Hs Hb. split; [done|]. intros e m Heq. by destruct (Hb e m). Qed.

Lemma watch_body_sources d b :
  watch_body d = Some b → ∀ e m, b ≠ BFailure e m.
Proof.
  unfold watch_body. intros H e m ->.
  destruct (prop "sources" (Some d)) as [sources|]; [|done].
  destruct (prop "headers" (Some d)) as [headers|]; [|done].
  simpl in H. destruct (negb (truthy sources)); [done|].
  destruct (js_length sources) as [len|]; [|done].
  simpl in H. by destruct (is_zero len).
Qed.

(** A handler never sends the failure reply of the proxy. *)
Lemma hsettled_body now h o st r s b :
  In (Replied r s b) (log (hsettled now h o st).1) →
  In (Replied r s b) (log st) ∨
  ((s = 200 ∨ s = 500) ∧ ∀ e m, b ≠ BFailure e m).
Proof.
  unfold hsettled, fail_with, issue.
  destruct h, o; simpl; repeat case_match; simpl;
    intros Hin; repeat (destruct Hin as [Hin|Hin]; [simplify_eq|]);
    try (by left);
    right; (split; [by auto|]); try done;
    by eapply watch_body_sources.
Qed.

Lemma told_step now e st st' :
  guard_inv st → told (log st) → step now e st = Some st' → told (log st').
Proof.
  intros Hg Hl Hs. destruct (core_event e) eqn:He.
  - pose proof (step_trans _ _ _ _ Hg Hs) as Ht.
    destruct Ht; simpl in *; try congruence; try done.
    + apply (told_ext [_]); [done|]. intros r0 s b [Hin|[]]. simplify_eq.
      by apply reports_success.
    + apply (told_ext [_]); [done|]. by intros r0 s b [Hin|[]].
    + apply (told_ext [_]); [done|]. by intros r0 s b [Hin|[]].
    + apply (told_ext [_]); [done|]. by intros r0 s b [Hin|[]].
    + apply (told_ext (ok_log now it s d)); [done|].
      intros r0 s0 b [Hin|[Hin|[Hin|[]]]]; simplify_eq.
      by apply reports_success.
    + apply (told_ext (ok_log now it s d)); [done|].
      intros r0 s0 b [Hin|[Hin|[Hin|[]]]]; simplify_eq.
      by apply reports_success.
    + apply (told_ext [_]); [done|]. by intros r0 s b [Hin|[]].
    + apply (told_ext (fail_log now it r m)); [done|].
      intros r0 s0 b [Hin|[Hin|[Hin|[]]]]; simplify_eq.
      split; [by apply status_or_500_not_429|].
      intros e m0 [= <- <-]. exists now, (Jikan (endpoint it)), r.
      split; [|done]. simpl. auto.
    + apply (told_ext (fail_log now it r m)); [done|].
      intros r0 s0 b [Hin|[Hin|[Hin|[]]]]; simplify_eq.
      split; [by apply status_or_500_not_429|].
      intros e m0 [= <- <-]. exists now, (Jikan (endpoint it)), r.
      split; [|done]. simpl. auto.
    + apply (told_ext (_ :: fail_log now it r m)); [done|].
      intros r0 s0 b [Hin|[Hin|[Hin|[Hin|[]]]]]; simplify_eq.
      split; [by apply status_or_500_not_429|].
      intros e m0 [= <- <-]. exists now, (Jikan (endpoint it)), r.
      split; [|done]. simpl. auto.
  - destruct e as [| | | r id p | r id | h o]; try done;
      unfold step in Hs; simpl in Hs.
    + simplify_eq. simpl. apply (told_ext [_]); [done|].
      by intros r0 s b [Hin|[]].
    + simplify_eq. simpl. apply (told_ext [_]); [done|].
      by intros r0 s b [Hin|[]].
    + destruct (handlers st !! h) as [hst|] eqn:Hh; [|done]. simplify_eq.
      pose proof (hsettled_body now hst o (set_clock now st)) as Hb.
      destruct (hsettled_shape now hst o (set_clock now st))
        as (new & k & Heq & _).
      unfold hresume. rewrite Heq in Hb |- *. simpl in *.
      assert (told (new ++ log st)) as Hnew.
      { apply told_ext; [done|]. intros r s b Hin.
        destruct (Hb r s b) as [Hold|[[-> | ->] Hbody]].
        - apply in_or_app. by left.
        - apply reports_mono. by eapply Hl.
        - by apply reports_success.
        - by apply reports_success. }
      by destruct k.
Qed.

(** X20.  A 429 is never passed on by the proxy.  No reply of the program
    has the status 429; and a failure reply of the proxy (lines 120-123)
    always reports a call of the worker that failed with something other
    than a 429: it carries the message of that call, and its status or 500.
    (The 500 replies of the watch and episodes handlers carry the message
    of the error they caught, lines 261-265 and 286-289, so a 429 met by a
    handler can be read there; [BHandlerFailure] leaves that text out and
    nothing is said about it here.) *)
Theorem no_reply_carries_429 tr st r s b :
  run tr init = Some st →
  In (Replied r s b) (log st) →
  s ≠ 429 ∧
  ∀ e m, b = BFailure e m →
    ∃ t u rsp, In (Settled Worker t u (Err rsp m)) (log st) ∧
               throttled rsp = false ∧ s = status_or_500 rsp.
Proof.
  intros Hr Hin.
  assert (told (log st)) as Hl.
  { apply (run_invariant_step (λ st, told (log st))
             (λ now e st0 st1 Hg HP Hs _, told_step now e st0 st1 Hg HP Hs)
             tr init st init_guard); [by intros ? ? ? [] | done]. }
  by apply (Hl r s b).
Qed.

(** ** Instances of the further properties *)

(** X1, instance. *)
Lemma misses_complete_in_arrival_order_witness :
  run one_waiting init = Some waiting_state ∧
  rev (resolved (log waiting_state)) ++ map res (pending waiting_state) =
  misses one_waiting init.
Proof.
  split; [by vm_compute|].
  apply (misses_complete_in_arrival_order one_waiting waiting_state).
  by vm_compute.
Defined.

(** X3, instance: caller 1 of [one_waiting]. *)
Lemma every_request_answered_once_witness :
  run one_waiting init = Some waiting_state ∧
  (tally (is_reply_to 1) (log waiting_state)
   + tally (is_from 1) (pending waiting_state)
   + tally (works_for 1) (handlers waiting_state) =
   tally (is_request_from 1) one_waiting)%nat ∧
  (tally (is_request_from 1) one_waiting = 0%nat →
   tally (is_reply_to 1) (log waiting_state) = 0%nat) ∧
  (tally (is_request_from 1) one_waiting = 1%nat →
   (tally (is_reply_to 1) (log waiting_state) ≤ 1)%nat ∧
   (tally (is_reply_to 1) (log waiting_state) = 0%nat ↔
    (tally (is_from 1) (pending waiting_state)
     + tally (works_for 1) (handlers waiting_state) = 1)%nat)).
Proof.
  split; [by vm_compute|].
  apply (every_request_answered_once one_waiting waiting_state 1).
  by vm_compute.
Defined.

(** In [waiting_state] caller 1 has its reply and caller 2 is waiting. *)
Lemma answered_and_waiting :
  tally (is_request_from 1) one_waiting = 1%nat ∧
  tally (is_reply_to 1) (log waiting_state) = 1%nat ∧
  tally (is_request_from 2) one_waiting = 1%nat ∧
  tally (is_reply_to 2) (log waiting_state) = 0%nat ∧
  tally (is_from 2) (pending waiting_state) = 1%nat.
Proof. repeat split; by vm_compute. Qed.

(** X4, instance: the success that fills the cache for [recent]. *)
Lemma cache_written_only_on_success_witness :
  step (t0 + 800) (Response 0 (Ok 200 page)) busy = Some served_state ∧
  cache served_state !! recent ≠ cache busy !! recent ∧
  ∃ w it s d,
    Response 0 (Ok 200 page) = Response w (Ok s d) ∧
    workers busy !! w = Some (AwaitCall it) ∧
    endpoint it = recent ∧
    cache served_state !! recent =
      Some {| data := d; timestamp := t0 + 800 |}.
Proof.
  assert (cache served_state !! recent ≠ cache busy !! recent) as Hne
    by (by vm_compute).
  split; [by vm_compute|]. split; [exact Hne|].
  apply (cache_written_only_on_success (t0 + 800) (Response 0 (Ok 200 page))
           busy served_state recent); [by vm_compute | exact Hne].
Defined.

(** X5, instance: the entry of [recent] is stale and stays. *)
Lemma cache_never_evicts_witness :
  run [(t0 + 400000, Fetch 2 recent)] served_state = Some refetching ∧
  is_Some (cache served_state !! recent) ∧
  is_Some (cache refetching !! recent).
Proof.
  assert (is_Some (cache served_state !! recent)) as Hs
    by (eexists; by vm_compute).
  split; [by vm_compute|]. split; [exact Hs|].
  apply (cache_never_evicts [(t0 + 400000, Fetch 2 recent)] served_state
           refetching recent); [by vm_compute | exact Hs].
Defined.

(** X6, instance. *)
Lemma cache_holds_newest_success_witness :
  run one_success init = Some served_state ∧
  cache served_state !! recent = last_success recent (log served_state).
Proof.
  split; [by vm_compute|].
  apply (cache_holds_newest_success one_success served_state recent).
  by vm_compute.
Defined.

(** X7, instance. *)
Lemma lastRequestTime_is_newest_success_witness :
  run one_success init = Some served_state ∧
  lastRequestTime served_state =
    default 0 (newest_success_time (log served_state)).
Proof.
  split; [by vm_compute|].
  apply (lastRequestTime_is_newest_success one_success served_state).
  by vm_compute.
Defined.

(** X8, instance. *)
Lemma queued_request_has_a_worker_witness :
  run one_waiting init = Some waiting_state ∧
  (queue waiting_state ≠ [] →
   isProcessingQueue waiting_state = true ∧
   ∃ w, workers waiting_state = [w]) ∧
  (∀ w due, workers waiting_state !! w = Some (AwaitGate due) ∨
            workers waiting_state !! w = Some (AwaitBackoff due) →
            ∃ it, head (queue waiting_state) = Some it).
Proof.
  split; [by vm_compute|].
  apply (queued_request_has_a_worker one_waiting waiting_state).
  by vm_compute.
Defined.

(** X9, instance: the timer set when the first call of [two_pending]
    succeeds. *)
Lemma spacing_timer_delay_witness :
  well_timed two_fetches init = true ∧
  run two_fetches init = Some two_pending ∧
  timely (t0 + 800) (Response 0 (Ok 200 page)) two_pending = true ∧
  step (t0 + 800) (Response 0 (Ok 200 page)) two_pending =
    Some waiting_state ∧
  workers waiting_state = [AwaitGate (t0 + 1800)] ∧
  (∀ d, workers two_pending ≠ [AwaitGate d]) ∧
  t0 + 1800 = lastRequestTime waiting_state + RATE_LIMIT_DELAY ∧
  t0 + 800 < t0 + 1800 ≤ t0 + 800 + RATE_LIMIT_DELAY.
Proof.
  assert (∀ d, workers two_pending ≠ [AwaitGate d]) as Hnew by done.
  split; [by vm_compute|]. split; [by vm_compute|]. split; [by vm_compute|].
  split; [by vm_compute|]. split; [by vm_compute|]. split; [exact Hnew|].
  apply (spacing_timer_delay two_fetches two_pending (t0 + 800)
           (Response 0 (Ok 200 page)) waiting_state (t0 + 1800));
    [by vm_compute | by vm_compute | by vm_compute | by vm_compute
    | by vm_compute | exact Hnew].
Defined.

(** X10, instance. *)
Lemma worker_can_always_finish_witness :
  run one_waiting init = Some waiting_state ∧
  ∃ tr st',
    run tr waiting_state = Some st' ∧ well_timed tr waiting_state = true ∧
    forallb (λ x, worker_event x.2) tr = true ∧
    (length tr ≤ 2 * length (pending waiting_state) + 1)%nat ∧
    pending st' = [] ∧ isProcessingQueue st' = false.
Proof.
  split; [by vm_compute|].
  apply (worker_can_always_finish one_waiting waiting_state).
  by vm_compute.
Defined.

(** X11, instance: the call of [busy] is refused twice. *)
Lemma throttling_holds_the_queue_witness :
  run one_fetch init = Some busy ∧
  workers busy = [AwaitCall (item_of 1 recent)] ∧
  throttled status_429 = true ∧
  Forall (λ x, RATE_LIMIT_DELAY ≤ x.2 - lastRequestTime busy) two_refusals ∧
  ∃ st',
    run (flat_map (refusal status_429 "429") two_refusals) busy = Some st' ∧
    workers st' = [AwaitCall (item_of 1 recent)] ∧ queue st' = queue busy ∧
    cache st' = cache busy ∧ lastRequestTime st' = lastRequestTime busy ∧
    log st' =
      flat_map (refusal_log (item_of 1 recent) status_429 "429")
        (rev two_refusals) ++ log busy.
Proof.
  assert (Forall (λ x, RATE_LIMIT_DELAY ≤ x.2 - lastRequestTime busy)
            two_refusals) as Hf.
  { repeat (constructor; [by vm_compute|]). constructor. }
  split; [by vm_compute|]. split; [reflexivity|]. split; [reflexivity|].
  split; [exact Hf|].
  apply (throttling_holds_the_queue one_fetch busy (item_of 1 recent)
           status_429 "429" two_refusals);
    [by vm_compute | reflexivity | reflexivity | exact Hf].
Defined.

(** X12, instance: the two successes of [two_answers]. *)
Lemma successes_complete_spaced_witness :
  well_timed two_answers init = true ∧
  run two_answers init = Some two_answers_state ∧
  log two_answers_state =
    [Replied 2 200 (BData page'); Resolved 2 (Some page')]
    ++ Settled Worker (t0 + 2000) (Jikan recent) (Ok 200 page')
    :: Issued Worker (t0 + 1800) (Jikan recent)
    :: ok_log (t0 + 800) (item_of 1 recent) 200 page
    ++ [Issued Worker t0 (Jikan recent)] ∧
  In (Settled Worker (t0 + 800) (Jikan recent) (Ok 200 page))
     (Issued Worker (t0 + 1800) (Jikan recent)
      :: ok_log (t0 + 800) (item_of 1 recent) 200 page
      ++ [Issued Worker t0 (Jikan recent)]) ∧
  t0 + 800 + RATE_LIMIT_DELAY ≤ t0 + 2000.
Proof.
  assert (In (Settled Worker (t0 + 800) (Jikan recent) (Ok 200 page))
            (Issued Worker (t0 + 1800) (Jikan recent)
             :: ok_log (t0 + 800) (item_of 1 recent) 200 page
             ++ [Issued Worker t0 (Jikan recent)])) as Hin
    by (simpl; auto 10).
  split; [by vm_compute|]. split; [by vm_compute|]. split; [reflexivity|].
  split; [exact Hin|].
  apply (successes_complete_spaced two_answers two_answers_state
           [Replied 2 200 (BData page'); Resolved 2 (Some page')]
           (Issued Worker (t0 + 1800) (Jikan recent)
            :: ok_log (t0 + 800) (item_of 1 recent) 200 page
            ++ [Issued Worker t0 (Jikan recent)])
           (t0 + 2000) (Jikan recent) 200 page'
           (t0 + 800) (Jikan recent) 200 page);
    [by vm_compute | by vm_compute | reflexivity | exact Hin].
Defined.

(** X13, instance. *)
Lemma handler_request_makes_at_most_three_calls_witness :
  run fetch_then_watch init = Some busy_watched ∧
  (hrequests fetch_then_watch ≤ handler_calls (log busy_watched)
   ≤ 3 * hrequests fetch_then_watch)%nat.
Proof.
  split; [by vm_compute|].
  apply (handler_request_makes_at_most_three_calls fetch_then_watch
           busy_watched).
  by vm_compute.
Defined.


(** X15, instance: a search with one result, for a watch handler. *)
Lemma search_result_decides_witness :
  calls_left (WatchSearch 2 "Cowboy Bebop" 1) = 2%nat ∧
  prop "results" (Some found) =
    Some (Some (JArr (JObj [("id", JStr "cowboy-bebop")] :: []))) ∧
  ∃ h', hsettled (t0 + 200) (WatchSearch 2 "Cowboy Bebop" 1) (Ok 200 found)
          init =
          (emit (Issued Handler (t0 + 200) (awaited h'))
             (emit (Settled Handler (t0 + 200)
                      (awaited (WatchSearch 2 "Cowboy Bebop" 1))
                      (Ok 200 found)) init),
           Some h') ∧
        (awaited h' = GogoInfo (assoc "id" [("id", JStr "cowboy-bebop")]) ∨
         ∃ ep, awaited h' =
                 GogoWatch (assoc "id" [("id", JStr "cowboy-bebop")]) ep).
Proof.
  split; [reflexivity|]. split; [reflexivity|].
  apply (proj2 (search_result_decides (t0 + 200)
                  (WatchSearch 2 "Cowboy Bebop" 1) 200 found init eq_refl)
           [("id", JStr "cowboy-bebop")] []).
  reflexivity.
Defined.

(** X16, instance: a source lookup with one source. *)
Lemma sources_decide_witness :
  prop "sources" (Some streams) =
    Some (Some (JArr [JObj [("url", JStr "https://cdn.example/1.m3u8")]])) ∧
  ∃ headers,
    prop "headers" (Some streams) = Some headers ∧
    hsettled (t0 + 300) (WatchSource 2 (Some (JStr "cowboy-bebop")) 1)
      (Ok 200 streams) init =
      (emit (Replied 2 200
               (BSources
                  (Some (JArr [JObj [("url",
                                      JStr "https://cdn.example/1.m3u8")]]))
                  headers))
         (emit (Settled Handler (t0 + 300)
                  (GogoWatch (Some (JStr "cowboy-bebop")) 1)
                  (Ok 200 streams)) init),
       None).
Proof.
  split; [reflexivity|].
  apply (proj2 (sources_decide (t0 + 300) 2 (Some (JStr "cowboy-bebop")) 1
                  200 streams init)
           (JObj [("url", JStr "https://cdn.example/1.m3u8")]) []).
  reflexivity.
Defined.

(** X17, instance. *)
Lemma route_endpoint_injective_witness :
  route_endpoint (Search "one piece") = route_endpoint (Search "one piece") ∧
  Search "one piece" = Search "one piece".
Proof.
  split; [reflexivity|].
  apply (route_endpoint_injective (Search "one piece") (Search "one piece")).
  reflexivity.
Defined.

(** X18, instance: the [%] that stands for the space of ["one piece"]. *)
Lemma encoded_query_alphabet_witness :
  In "%"%char (list_ascii_of_string (encodeURIComponent "one piece")) ∧
  (is_unreserved "%" = true ∨ "%"%char = "%"%char) ∧
  ¬ In "%"%char (list_ascii_of_string "&=?#/+ ").
Proof.
  assert (In "%"%char (list_ascii_of_string (encodeURIComponent "one piece")))
    as Hin by (simpl; auto 10).
  split; [exact Hin|].
  apply (encoded_query_alphabet "one piece" "%" Hin).
Defined.

(** X19, instance: three requests at once. *)
Lemma queue_is_unbounded_witness :
  RATE_LIMIT_DELAY ≤ t0 ∧
  ∃ st,
    run (flood t0 recent 3) init = Some st ∧
    workers st = [AwaitCall (item_of 0 recent)] ∧
    queue st = map (λ r, item_of r recent) (seq 1 2) ∧
    log st = [Issued Worker t0 (Jikan recent)].
Proof.
  split; [by vm_compute|].
  apply (queue_is_unbounded recent t0 2). by vm_compute.
Defined.

(** X20, instance: the call of [busy] is answered 429 and then fails with a
    500; the caller is told of the 500. *)
Lemma no_reply_carries_429_witness :
  run refused_then_failed init = Some failed_state ∧
  In (Replied 1 500
        (BFailure "Failed to fetch anime data"
           "Request failed with status code 500")) (log failed_state) ∧
  500 ≠ 429 ∧
  ∀ e m,
    BFailure "Failed to fetch anime data"
      "Request failed with status code 500" = BFailure e m →
    ∃ t u rsp, In (Settled Worker t u (Err rsp m)) (log failed_state) ∧
               throttled rsp = false ∧ 500 = status_or_500 rsp.
Proof.
  assert (In (Replied 1 500
                (BFailure "Failed to fetch anime data"
                   "Request failed with status code 500"))
             (log failed_state)) as Hin by (simpl; auto).
  split; [by vm_compute|]. split; [exact Hin|].
  apply (no_reply_carries_429 refused_then_failed failed_state 1 500
           (BFailure "Failed to fetch anime data"
              "Request failed with status code 500"));
    [by vm_compute | exact Hin].
Defined.
